(** * NostrClient: connection, identity, publish, subscribe and fetch

    A shallow embedding of [core/NostrClient.ts] of nostr-battle-room.

    The class is a record of its private fields; every method is a function
    that threads the client and a [World] (the storage backend's contents, the
    key generator, the clock and a chronological trace of the calls made to
    external collaborators).  What lives outside the repository (nostr-tools,
    the storage backend, the relays) is the interface [Host].  The promise
    returned by [fetch] is a small state machine driven by the callbacks the
    method registers. *)

From Stdlib Require Import ZArith Lia Ascii String List Bool.
From stdpp Require Import base strings list gmap.

Local Open Scope string_scope.
Local Open Scope Z_scope.

(** ** JavaScript strings

    Strings are byte strings; the operations below are the ones the client
    uses.  [toLowerCase] folds the ASCII letters, which is all that matters
    for the marker searched by [fetch]: no character outside A-Z lowers to
    one of the letters e, o, s. *)

Module Js.

Definition lower_char (c : ascii) : ascii :=
  let n := nat_of_ascii c in
  if ((65 <=? n)%nat && (n <=? 90)%nat)%bool then ascii_of_nat (n + 32) else c.

Fixpoint toLowerCase (s : string) : string :=
  match s with
  | EmptyString => EmptyString
  | String c s' => String (lower_char c) (toLowerCase s')
  end.

Definition startsWith (s pat : string) : bool := String.prefix pat s.

Fixpoint includes (s pat : string) : bool :=
  String.prefix pat s ||
  match s with
  | EmptyString => false
  | String _ s' => includes s' pat
  end.

(** [xs.join(sep)] on an array whose elements are already rendered. *)
Definition join (sep : string) (xs : list string) : string := String.concat sep xs.

(** Errors that cross the client's boundary: [new Error(message)], and the
    [AggregateError] with which [Promise.any] rejects. *)
Inductive Error : Type :=
| mkError (message : string)
| AggregateError (errors : list string).

(** The outcome of a call that may throw (or of an awaited promise). *)
Inductive result (A : Type) : Type :=
| Ok (a : A)
| Throw (e : Error).
Global Arguments Ok {A} a.
Global Arguments Throw {A} e.

(** A number handed to [setTimeout]: a whole number of milliseconds, [NaN]
    or an infinity.  Fractions of a millisecond are below the resolution of
    the clock used here. *)
Inductive JsNumber : Type :=
| Millis (ms : Z)
| NaN
| Infinity (negative : bool).

End Js.

Import Js.

(** ** Wire data *)

Definition SecretKey : Type := list Byte.byte.

Record NostrEvent : Type := {
  id : string;
  pubkey : string;
  created_at : Z;
  kind : Z;
  tags : list (list string);
  content : string;
  sig : string
}.

(** [Omit<NostrEvent, 'id' | 'pubkey' | 'created_at' | 'sig'>] *)
Record EventTemplate : Type := {
  t_kind : Z;
  t_tags : list (list string);
  t_content : string
}.

(** What [publish] hands to [finalizeEvent]. *)
Record UnsignedEvent : Type := {
  u_kind : Z;
  u_tags : list (list string);
  u_content : string;
  u_created_at : Z
}.

Record Filter : Type := {
  f_ids : option (list string);
  f_kinds : option (list Z);
  f_authors : option (list string);
  f_tagged : list (string * list string);
  f_since : option Z;
  f_until : option Z;
  f_limit : option Z
}.

(** The result of nip19 [decode]: only the [nsec] variant carries a key. *)
Inductive Decoded : Type :=
| DecodedNsec (data : SecretKey)
| DecodedOther (type : string).

(** An element of the [reasons] array handed to [onclose]: a string, or some
    other value together with the text [join] renders it as. *)
Inductive Reason : Type :=
| RString (s : string)
| ROther (rendered : string).

Definition render (r : Reason) : string :=
  match r with RString s => s | ROther t => t end.

Record RetryOptions : Type := {
  maxAttempts : nat;
  initialDelay : Z;
  maxDelay : Z
}.

(** One relay's answer to a publish: how long it takes and whether the relay
    accepts the event. *)
Record RelayReply : Type := {
  latency : N;
  accepted : bool;
  refusal : string
}.

Record SimplePool : Type := { pool_id : nat }.
Record SubCloser : Type := { sub_id : nat }.

(** ** The world outside the class *)

(** Calls that leave the class, in the order they are made.  Console calls
    are recorded by their message text. *)
Inductive Effect : Type :=
| EGetItem (key : string)
| ESetItem (key value : string)
| EGenerateSecretKey
| ENewPool (p : SimplePool)
| EPoolClose (p : SimplePool) (urls : list string)
| EFinalizeEvent (u : UnsignedEvent)
| EPoolPublish (p : SimplePool) (urls : list string) (ev : NostrEvent)
| ESleep (ms : Z)
| ESubscribeMany (p : SimplePool) (urls : list string) (f : Filter)
| ESubscribeManyEose (p : SimplePool) (urls : list string) (f : Filter)
| ESubClose (s : SubCloser)
| ESetTimeout (ms : JsNumber)
| EConsoleWarn (msg : string)
| EConsoleLog (msg : string)
| EConsoleError (msg : string).

(** External collaborators.  A storage backend is any pair of operations on
    some [Store]; either may throw.  [decode] may throw, and so may
    [getPublicKey] (nostr-tools refuses a key that is not a valid scalar).
    [generateSecretKey n] is the [n]-th key the generator hands out.
    [poolClose_throws urls] and [poolPublish_throws urls ev] say whether
    [pool.close(urls)] and [pool.publish(urls, ev)] throw before doing
    anything (nostr-tools does on a relay text that is not a URL).
    [relayReply round i url ev] is the answer of the [i]-th relay to the
    [round]-th call of [pool.publish] when that call returns.  The two
    [subscribe..._throws] fields say whether opening the [n]-th subscription
    throws. *)
Class Host : Type := {
  Store : Type;
  getItem : string -> Store -> result (option string) * Store;
  setItem : string -> string -> Store -> result unit * Store;
  decode : string -> result Decoded;
  nsecEncode : SecretKey -> string;
  generateSecretKey : nat -> SecretKey;
  getPublicKey : SecretKey -> result string;
  finalizeEvent : UnsignedEvent -> SecretKey -> NostrEvent;
  poolClose_throws : list string -> option Error;
  poolPublish_throws : list string -> NostrEvent -> option Error;
  relayReply : nat -> nat -> string -> NostrEvent -> RelayReply;
  subscribeMany_throws : nat -> list string -> Filter -> option Error;
  subscribeManyEose_throws : nat -> list string -> Filter -> option Error
}.

Section World.

Context `{H : Host}.

Record World : Type := {
  w_store : Store;
  w_keys : nat;
  w_pools : nat;
  w_subs : nat;
  w_rounds : nat;
  w_now : Z;
  w_trace : list Effect
}.

Definition emit (e : Effect) (w : World) : World :=
  {| w_store := w_store w; w_keys := w_keys w; w_pools := w_pools w;
     w_subs := w_subs w; w_rounds := w_rounds w; w_now := w_now w;
     w_trace := w_trace w ++ [e] |}.

Definition set_store (s : Store) (w : World) : World :=
  {| w_store := s; w_keys := w_keys w; w_pools := w_pools w;
     w_subs := w_subs w; w_rounds := w_rounds w; w_now := w_now w;
     w_trace := w_trace w |}.

Definition next_key (w : World) : World :=
  {| w_store := w_store w; w_keys := S (w_keys w); w_pools := w_pools w;
     w_subs := w_subs w; w_rounds := w_rounds w; w_now := w_now w;
     w_trace := w_trace w |}.

Definition next_pool (w : World) : World :=
  {| w_store := w_store w; w_keys := w_keys w; w_pools := S (w_pools w);
     w_subs := w_subs w; w_rounds := w_rounds w; w_now := w_now w;
     w_trace := w_trace w |}.

Definition next_sub (w : World) : World :=
  {| w_store := w_store w; w_keys := w_keys w; w_pools := w_pools w;
     w_subs := S (w_subs w); w_rounds := w_rounds w; w_now := w_now w;
     w_trace := w_trace w |}.

Definition next_round (w : World) : World :=
  {| w_store := w_store w; w_keys := w_keys w; w_pools := w_pools w;
     w_subs := w_subs w; w_rounds := S (w_rounds w); w_now := w_now w;
     w_trace := w_trace w |}.

Definition advance (ms : Z) (w : World) : World :=
  {| w_store := w_store w; w_keys := w_keys w; w_pools := w_pools w;
     w_subs := w_subs w; w_rounds := w_rounds w; w_now := w_now w + ms;
     w_trace := w_trace w |}.

(** ** The class *)

Record NostrClientOptions : Type := {
  o_relays : option (list string);
  o_storageKeyPrefix : option string;
  o_publishRetry : option RetryOptions
}.

Record NostrClient : Type := {
  pool : option SimplePool;
  secretKey : option SecretKey;
  _publicKey : string;
  _isConnected : bool;
  relays : list string;
  storageKeyPrefix : string;
  publishRetry : RetryOptions
}.

(** Methods run against [this] and the world; a method either returns or
    throws, and in both cases the assignments made so far stay. *)
Definition M (A : Type) : Type :=
  NostrClient -> World -> result A * NostrClient * World.

Definition ret {A} (a : A) : M A := fun c w => (Ok a, c, w).

Definition throw {A} (e : Error) : M A := fun c w => (Throw e, c, w).

Definition bind {A B} (m : M A) (k : A -> M B) : M B :=
  fun c w =>
    match m c w with
    | (Ok a, c', w') => k a c' w'
    | (Throw e, c', w') => (Throw e, c', w')
    end.

(** [try { body } catch { handler }] *)
Definition try_catch {A} (body : M A) (handler : M A) : M A :=
  fun c w =>
    match body c w with
    | (Ok a, c', w') => (Ok a, c', w')
    | (Throw _, c', w') => handler c' w'
    end.

Definition this : M NostrClient := fun c w => (Ok c, c, w).

Definition assign (f : NostrClient -> NostrClient) : M unit :=
  fun c w => (Ok tt, f c, w).

Definition effect (e : Effect) : M unit := fun c w => (Ok tt, c, emit e w).

Definition world : M World := fun c w => (Ok w, c, w).

Definition update (f : World -> World) : M unit := fun c w => (Ok tt, c, f w).

End World.

Notation "x <- m ;; k" := (bind m (fun x => k))
  (at level 100, m at next level, right associativity).
Notation "m ;;; k" := (bind m (fun _ => k))
  (at level 100, right associativity).

Section Methods.

Context `{H : Host}.

Definition set_pool (p : option SimplePool) (c : NostrClient) : NostrClient :=
  {| pool := p; secretKey := secretKey c; _publicKey := _publicKey c;
     _isConnected := _isConnected c; relays := relays c;
     storageKeyPrefix := storageKeyPrefix c; publishRetry := publishRetry c |}.

Definition set_secretKey (k : SecretKey) (c : NostrClient) : NostrClient :=
  {| pool := pool c; secretKey := Some k; _publicKey := _publicKey c;
     _isConnected := _isConnected c; relays := relays c;
     storageKeyPrefix := storageKeyPrefix c; publishRetry := publishRetry c |}.

Definition set_publicKey (pk : string) (c : NostrClient) : NostrClient :=
  {| pool := pool c; secretKey := secretKey c; _publicKey := pk;
     _isConnected := _isConnected c; relays := relays c;
     storageKeyPrefix := storageKeyPrefix c; publishRetry := publishRetry c |}.

Definition set_isConnected (b : bool) (c : NostrClient) : NostrClient :=
  {| pool := pool c; secretKey := secretKey c; _publicKey := _publicKey c;
     _isConnected := b; relays := relays c;
     storageKeyPrefix := storageKeyPrefix c; publishRetry := publishRetry c |}.

(** [new NostrClient(options)].  [DEFAULT_CONFIG.relays] comes from the
    [types] module and is a parameter here.  [options.storage], which
    defaults to [localStorage], is the storage backend of the [Host]. *)
Definition constructor (DEFAULT_CONFIG_relays : list string)
    (options : NostrClientOptions) : NostrClient :=
  {| pool := None;
     secretKey := None;
     _publicKey := "";
     _isConnected := false;
     relays := default DEFAULT_CONFIG_relays (o_relays options);
     storageKeyPrefix := default "nostr-battle" (o_storageKeyPrefix options);
     publishRetry :=
       default {| maxAttempts := 3; initialDelay := 1000; maxDelay := 5000 |}
               (o_publishRetry options) |}.

Definition isConnected (c : NostrClient) : bool := _isConnected c.

Definition publicKey (c : NostrClient) : string := _publicKey c.

Definition NotConnected : Error :=
  mkError "NostrClient not connected. Call connect() first.".

(** *** Calls into the host *)

Definition storage_getItem (key : string) : M (option string) :=
  fun c w =>
    let '(r, s) := getItem key (w_store w) in
    (r, c, emit (EGetItem key) (set_store s w)).

Definition storage_setItem (key value : string) : M unit :=
  fun c w =>
    let '(r, s) := setItem key value (w_store w) in
    (r, c, emit (ESetItem key value) (set_store s w)).

Definition nip19_decode (s : string) : M Decoded := fun c w => (decode s, c, w).

Definition new_secretKey : M SecretKey :=
  fun c w =>
    (Ok (generateSecretKey (w_keys w)), c, emit EGenerateSecretKey (next_key w)).

Definition derive_publicKey (sk : SecretKey) : M string :=
  fun c w => (getPublicKey sk, c, w).

Definition pool_close (p : SimplePool) (urls : list string) : M unit :=
  fun c w =>
    (match poolClose_throws urls with
     | Some e => Throw e
     | None => Ok tt
     end, c, emit (EPoolClose p urls) w).

Definition new_SimplePool : M SimplePool :=
  fun c w =>
    let p := {| pool_id := w_pools w |} in
    (Ok p, c, emit (ENewPool p) (next_pool w)).

(** *** connect, safeStorageSet, disconnect *)

Definition safeStorageSet (key value : string) : M unit :=
  try_catch (storage_setItem key value) (ret tt).

Definition generate_and_store (nsecKey : string) : M unit :=
  k <- new_secretKey ;;
  assign (set_secretKey k) ;;;
  safeStorageSet nsecKey (nsecEncode k).

Definition connect : M unit :=
  c <- this ;;
  if _isConnected c then ret tt else
  let nsecKey := storageKeyPrefix c ++ "-nsec" in
  try_catch
    (storedNsec <- storage_getItem nsecKey ;;
     match storedNsec with
     | Some stored =>
         if startsWith stored "nsec1" then
           try_catch
             (decoded <- nip19_decode stored ;;
              match decoded with
              | DecodedNsec data => assign (set_secretKey data)
              | DecodedOther _ => throw (mkError "Invalid nsec")
              end)
             (generate_and_store nsecKey)
         else generate_and_store nsecKey
     | None => generate_and_store nsecKey
     end)
    (k <- new_secretKey ;; assign (set_secretKey k)) ;;;
  c1 <- this ;;
  match secretKey c1 with
  | None => throw (mkError "getPublicKey: no secret key")
  | Some sk =>
      pk <- derive_publicKey sk ;;
      assign (set_publicKey pk) ;;;
      p <- new_SimplePool ;;
      assign (set_pool (Some p)) ;;;
      assign (set_isConnected true)
  end.

Definition disconnect : M unit :=
  c <- this ;;
  match pool c with
  | Some p => pool_close p (relays c) ;;; assign (set_pool None)
  | None => ret tt
  end ;;;
  assign (set_isConnected false).

(** *** publish *)

Definition pool_publish (p : SimplePool) (urls : list string) (ev : NostrEvent)
    : M (list RelayReply) :=
  fun c w =>
    (match poolPublish_throws urls ev with
     | Some e => Throw e
     | None => Ok (imap (fun i url => relayReply (w_rounds w) i url ev) urls)
     end, c,
     emit (EPoolPublish p urls ev) (next_round w)).

(** The earliest acceptance among the replies, if any. *)
Fixpoint first_accept (replies : list RelayReply) : option N :=
  match replies with
  | [] => None
  | r :: rest =>
      match first_accept rest with
      | None => if accepted r then Some (latency r) else None
      | Some t => if accepted r then Some (N.min (latency r) t) else Some t
      end
  end.

(** When the last reply is in. *)
Definition last_reply (replies : list RelayReply) : N :=
  fold_right (fun r t => N.max (latency r) t) 0%N replies.

(** [await Promise.any(promises)]: fulfilled at the first fulfilment, without
    waiting for the others; rejected with an [AggregateError] once every
    promise has rejected (at once when there is none). *)
Definition Promise_any (replies : list RelayReply) : M unit :=
  match first_accept replies with
  | Some t => update (advance (Z.of_N t))
  | None =>
      update (advance (Z.of_N (last_reply replies))) ;;;
      throw (AggregateError (map refusal replies))
  end.

(** Modelled from the spec: [withRetry] of the [retry] module, which is not
    among the sources.  The spec says that on failure the whole attempt is
    retried with bounded exponential backoff (configurable max attempts,
    initial and max delay) before a failure is surfaced, and that the wait
    before the second attempt is exactly the configured delay.  The growth
    factor is not given; the wait doubles here, capped by the max delay, and
    the failure surfaced is that of the last attempt. *)
Fixpoint retry_loop {A} (fn : M A) (retries : nat) (delay cap : Z) : M A :=
  fun c w =>
    match fn c w with
    | (Ok a, c', w') => (Ok a, c', w')
    | (Throw e, c', w') =>
        match retries with
        | O => (Throw e, c', w')
        | S n =>
            retry_loop fn n (Z.min (delay * 2) cap) cap c'
              (advance delay (emit (ESleep delay) w'))
        end
    end.

(** Modelled from the spec: [withRetry(fn, options)] makes at most
    [maxAttempts] attempts (one when the option is 0) and waits
    [initialDelay] before the second. *)
Definition withRetry {A} (fn : M A) (options : RetryOptions) : M A :=
  retry_loop fn (Nat.pred (maxAttempts options)) (initialDelay options)
    (maxDelay options).

(** One attempt: [Promise.any(this.pool!.publish(this.relays, event))]. *)
Definition publish_attempt (event : NostrEvent) : M unit :=
  c <- this ;;
  match pool c with
  | None => throw (mkError "Cannot read properties of null (reading 'publish')")
  | Some p =>
      replies <- pool_publish p (relays c) event ;;
      Promise_any replies
  end.

Definition publish (eventTemplate : EventTemplate) : M unit :=
  c <- this ;;
  match pool c, secretKey c with
  | Some _, Some sk =>
      w <- world ;;
      let u := {| u_kind := t_kind eventTemplate;
                  u_tags := t_tags eventTemplate;
                  u_content := t_content eventTemplate;
                  u_created_at := w_now w / 1000 |} in
      effect (EFinalizeEvent u) ;;;
      withRetry (publish_attempt (finalizeEvent u sk)) (publishRetry c)
  | _, _ => throw NotConnected
  end.

(** *** subscribe *)

(** The function [subscribe] returns: either [() => {}] or
    [() => { sub.close(); }]. *)
Inductive Unsubscribe : Type :=
| Unsubscribe_noop
| Unsubscribe_close (sub : SubCloser).

Definition call_unsubscribe (u : Unsubscribe) : M unit :=
  match u with
  | Unsubscribe_noop => ret tt
  | Unsubscribe_close sub => effect (ESubClose sub)
  end.

Definition pool_subscribeMany (p : SimplePool) (urls : list string) (f : Filter)
    : M SubCloser :=
  fun c w =>
    match subscribeMany_throws (w_subs w) urls f with
    | Some e => (Throw e, c, emit (ESubscribeMany p urls f) w)
    | None =>
        (Ok {| sub_id := w_subs w |}, c,
         emit (ESubscribeMany p urls f) (next_sub w))
    end.

(** The handlers passed to [subscribeMany]; the pool runs them later. *)
Definition subscribe_onevent (onEvent : NostrEvent -> M unit) (event : NostrEvent)
    : M unit :=
  effect (EConsoleLog "[NostrClient] Received event:") ;;;
  onEvent event.

Definition subscribe_oneose : M unit :=
  effect (EConsoleLog "[NostrClient] EOSE received").

Definition subscribe (filters : list Filter) : M Unsubscribe :=
  c <- this ;;
  match pool c with
  | None =>
      effect (EConsoleWarn "NostrClient not connected. Call connect() first.") ;;;
      ret Unsubscribe_noop
  | Some p =>
      match filters with
      | [] =>
          effect (EConsoleWarn "[NostrClient] No filters provided") ;;;
          ret Unsubscribe_noop
      | filter0 :: _ =>
          effect (EConsoleLog "[NostrClient] Subscribing with filter:") ;;;
          try_catch
            (sub <- pool_subscribeMany p (relays c) filter0 ;;
             ret (Unsubscribe_close sub))
            (effect (EConsoleError "Failed to subscribe:") ;;;
             ret Unsubscribe_noop)
      end
  end.

(** *** fetch *)

(** A call of [resolve] or [reject] on the promise.  [resolve(events)] hands
    out the [events] array itself, not a copy. *)
Inductive Settlement : Type :=
| Resolve
| Reject (error : option Error).

(** The closure of one [fetch] call: the [events] array, the [resolved] flag,
    the subscription, and what has been done to the promise and to the
    subscription so far. *)
Record FetchState : Type := {
  events : list NostrEvent;
  resolved : bool;
  sub : SubCloser;
  settlements : list Settlement;
  sub_closes : nat
}.

(** What the event loop may run after [fetch] has returned its promise. *)
Inductive Callback : Type :=
| OnEvent (event : NostrEvent)
| OnClose (reasons : list Reason)
| OnTimeout.

Definition finish (success : bool) (error : option Error) (st : FetchState)
    : FetchState :=
  if resolved st then st else
  {| events := events st;
     resolved := true;
     sub := sub st;
     settlements := settlements st ++ [if success then Resolve else Reject error];
     sub_closes := S (sub_closes st) |}.

Definition hasEose (reasons : list Reason) : bool :=
  existsb (fun r =>
             match r with
             | RString s => includes (toLowerCase s) "eose"
             | ROther _ => false
             end) reasons.

Definition onevent (event : NostrEvent) (st : FetchState) : FetchState :=
  {| events := events st ++ [event];
     resolved := resolved st;
     sub := sub st;
     settlements := settlements st;
     sub_closes := sub_closes st |}.

Definition onclose (reasons : list Reason) (st : FetchState) : FetchState :=
  if hasEose reasons then finish true None st
  else
    finish false
      (Some (mkError ("No relay response: " ++ join ", " (map render reasons))))
      st.

Definition ontimeout (st : FetchState) : FetchState :=
  finish false (Some (mkError "No relay response: timeout")) st.

Definition fetch_step (st : FetchState) (cb : Callback) : FetchState :=
  match cb with
  | OnEvent event => onevent event st
  | OnClose reasons => onclose reasons st
  | OnTimeout => ontimeout st
  end.

Definition fetch_run (st : FetchState) (cbs : list Callback) : FetchState :=
  fold_left fetch_step cbs st.

Definition pool_subscribeManyEose (p : SimplePool) (urls : list string)
    (f : Filter) : M SubCloser :=
  fun c w =>
    match subscribeManyEose_throws (w_subs w) urls f with
    | Some e => (Throw e, c, emit (ESubscribeManyEose p urls f) w)
    | None =>
        (Ok {| sub_id := w_subs w |}, c,
         emit (ESubscribeManyEose p urls f) (next_sub w))
    end.

(** [fetch(filter, timeoutMs = 5000)].  [Throw e] is a promise that is
    rejected from the start (the [async] function threw, or the promise's
    executor did); [Ok st] is a pending promise, settled later by the
    callbacks through [fetch_step]. *)
Definition fetch (filter : Filter) (timeoutMs : option JsNumber) : M FetchState :=
  let timeoutMs := default (Millis 5000) timeoutMs in
  c <- this ;;
  match pool c with
  | None => throw NotConnected
  | Some p =>
      sub <- pool_subscribeManyEose p (relays c) filter ;;
      effect (ESetTimeout timeoutMs) ;;;
      ret {| events := []; resolved := false; sub := sub;
             settlements := []; sub_closes := 0 |}
  end.

(** The state of the promise as its holder sees it: pending, fulfilled with
    the [events] array (as it is now), or rejected.  Only the first
    settlement counts. *)
Definition promise (st : FetchState) : option (result (list NostrEvent)) :=
  match settlements st with
  | [] => None
  | Resolve :: _ => Some (Ok (events st))
  | Reject (Some e) :: _ => Some (Throw e)
  | Reject None :: _ => Some (Throw (mkError "undefined"))
  end.

(** *** The timer

    Times are milliseconds since the [fetch] call.  [setTimeout] honours a
    delay between 1 and 2147483647; any other delay, [NaN] and the
    infinities included, is run as a delay of 1 (the rule of Node; browsers
    differ from it only outside that range).  The host runs the timer's
    callback [lag] milliseconds after the delay it honours; relay callbacks
    arrive at their own times.  [event_loop due now arrivals pending st] is
    the closure at time [now]. *)
Definition TIMEOUT_MAX : Z := 2147483647.

Definition setTimeout_delay (delay : JsNumber) : Z :=
  match delay with
  | Millis ms => if (1 <=? ms) && (ms <=? TIMEOUT_MAX) then ms else 1
  | NaN | Infinity _ => 1
  end.

Definition timer_due (timeoutMs : JsNumber) (lag : N) : Z :=
  setTimeout_delay timeoutMs + Z.of_N lag.

Fixpoint event_loop (due now : Z) (arrivals : list (Z * Callback))
    (pending : bool) (st : FetchState) : FetchState :=
  match arrivals with
  | [] => if pending && (due <=? now) then ontimeout st else st
  | (t, cb) :: rest =>
      if t <=? now then
        if pending && (due <? t)
        then event_loop due now rest false (fetch_step (ontimeout st) cb)
        else event_loop due now rest pending (fetch_step st cb)
      else if pending && (due <=? now) then ontimeout st else st
  end.

(** The timer armed by the calls in a trace, if any. *)
Definition armed_timer (tr : list Effect) : option JsNumber :=
  last (omap (fun e => match e with ESetTimeout n => Some n | _ => None end) tr).

(** The calls made between two worlds. *)
Definition since (w w' : World) : list Effect :=
  drop (length (w_trace w)) (w_trace w').

(** The closure of a [fetch] call at time [now], driven by the timer that was
    armed, if one was. *)
Definition fetch_at (armed : option JsNumber) (lag : N) (now : Z)
    (arrivals : list (Z * Callback)) (st0 : FetchState) : FetchState :=
  match armed with
  | Some delay => event_loop (timer_due delay lag) now arrivals true st0
  | None => event_loop 0 now arrivals false st0
  end.

(** [fetch] from the call to time [now]: the closure then, or the error with
    which the promise was rejected from the start. *)
Definition fetch_until (filter : Filter) (timeoutMs : option JsNumber)
    (c : NostrClient) (w : World) (lag : N) (arrivals : list (Z * Callback))
    (now : Z) : result FetchState :=
  match fetch filter timeoutMs c w with
  | (Throw e, _, _) => Throw e
  | (Ok st0, _, w') => Ok (fetch_at (armed_timer (since w w')) lag now arrivals st0)
  end.

(** What the holder of the promise sees at time [now]. *)
Definition fetch_promise_at (filter : Filter) (timeoutMs : option JsNumber)
    (c : NostrClient) (w : World) (lag : N) (arrivals : list (Z * Callback))
    (now : Z) : option (result (list NostrEvent)) :=
  match fetch_until filter timeoutMs c w lag arrivals now with
  | Throw e => Some (Throw e)
  | Ok st => promise st
  end.

(** *** A caller

    A sequence of method calls by a caller that catches what they throw. *)
Inductive Call : Type :=
| CallConnect
| CallDisconnect
| CallPublish (eventTemplate : EventTemplate)
| CallSubscribe (filters : list Filter)
| CallUnsubscribe (u : Unsubscribe)
| CallFetch (filter : Filter) (timeoutMs : option JsNumber).

Definition ignore {A} (m : M A) : M unit :=
  try_catch (m ;;; ret tt) (ret tt).

Definition call (k : Call) : M unit :=
  match k with
  | CallConnect => ignore connect
  | CallDisconnect => ignore disconnect
  | CallPublish t => ignore (publish t)
  | CallSubscribe fs => ignore (subscribe fs)
  | CallUnsubscribe u => ignore (call_unsubscribe u)
  | CallFetch f t => ignore (fetch f t)
  end.

Fixpoint calls (ks : list Call) : M unit :=
  match ks with
  | [] => ret tt
  | k :: rest => call k ;;; calls rest
  end.

Definition is_connect (k : Call) : bool :=
  match k with CallConnect => true | _ => false end.

End Methods.

(** ** What the specification says about close reasons

    A reason signals the end of stored events when it is a string that
    contains the marker up to letter case: some substring of it lowers to
    the marker. *)
Definition spec_contains_ci (s marker : string) : Prop :=
  exists pre mid post, s = pre ++ mid ++ post /\ toLowerCase mid = marker.

Definition spec_signals_eose (r : Reason) : Prop :=
  match r with
  | RString s => spec_contains_ci s "eose"
  | ROther _ => False
  end.

Definition is_completion (cb : Callback) : bool :=
  match cb with
  | OnEvent _ => false
  | OnClose _ | OnTimeout => true
  end.

(** The calls made on the promise of a [fetch] call once the callbacks [cbs]
    have run. *)
Definition fetch_settlements (r : result FetchState) (cbs : list Callback)
    : list Settlement :=
  match r with
  | Throw e => [Reject (Some e)]
  | Ok st0 => settlements (fetch_run st0 cbs)
  end.

Definition timeout_error : Error := mkError "No relay response: timeout".

Definition is_send (e : Effect) : bool :=
  match e with EPoolPublish _ _ _ => true | _ => false end.

Definition is_sign (e : Effect) : bool :=
  match e with EFinalizeEvent _ => true | _ => false end.

Definition sleeps (tr : list Effect) : list Z :=
  omap (fun e => match e with ESleep ms => Some ms | _ => None end) tr.

(** What [connect] leaves behind once a key [sk] has been chosen and its
    public key [pk] derived. *)
Definition connected_with (sk : SecretKey) (pk : string) (p : SimplePool)
    (c : NostrClient) : NostrClient :=
  {| pool := Some p; secretKey := Some sk; _publicKey := pk;
     _isConnected := true; relays := relays c;
     storageKeyPrefix := storageKeyPrefix c; publishRetry := publishRetry c |}.

(** The last steps of [connect], from the world [w1] in which the key [sk]
    has been put in place: the public key is derived, which may throw, and
    only then are the pool created and the flag set. *)
Definition connect_outcome `{H : Host} (sk : SecretKey) (c : NostrClient)
    (w1 : World) : result unit * NostrClient * World :=
  match getPublicKey sk with
  | Ok pk =>
      (Ok tt, connected_with sk pk {| pool_id := w_pools w1 |} c,
       emit (ENewPool {| pool_id := w_pools w1 |}) (next_pool w1))
  | Throw e => (Throw e, set_secretKey sk c, w1)
  end.

(** What [disconnect] leaves behind. *)
Definition disconnected (c : NostrClient) : NostrClient :=
  set_isConnected false
    match pool c with
    | Some _ => set_pool None c
    | None => c
    end.

(** A client on which [connect] has never run. *)
Definition never_connected (c : NostrClient) : Prop :=
  pool c = None /\ secretKey c = None /\ _publicKey c = ""%string /\
  _isConnected c = false.

(** While the flag is set, the client holds a pool and a secret key, and
    its public key is the one derived from that secret key. *)
Definition identity_consistent `{H : Host} (c : NostrClient) : Prop :=
  _isConnected c = true ->
  pool c <> None /\
  exists sk, secretKey c = Some sk /\ getPublicKey sk = Ok (_publicKey c).

(** The promises [pool.publish] returns in a given round, one per relay. *)
Definition replies_of `{H : Host} (round : nat) (urls : list string)
    (ev : NostrEvent) : list RelayReply :=
  imap (fun i url => relayReply round i url ev) urls.

(** The waits before the second, third, ... attempt of [withRetry]. *)
Fixpoint backoff_delays (n : nat) (delay cap : Z) : list Z :=
  match n with
  | O => []
  | S k => delay :: backoff_delays k (Z.min (delay * 2) cap) cap
  end.

(** The calls made by a run of attempts separated by the given waits. *)
Definition retry_trace (send : Effect) (delays : list Z) : list Effect :=
  send :: flat_map (fun d => [ESleep d; send]) delays.

Ltac run_method :=
  unfold connect, disconnect, generate_and_store, safeStorageSet, storage_getItem,
    storage_setItem, nip19_decode, new_secretKey, new_SimplePool,
    derive_publicKey, pool_close, try_catch,
    bind, this, ret, throw, assign, effect, world, update.

(** ** Relay status

    [pool.listConnectionStatus()] is the pool's own report, a map from relay
    URL to whether the relay is connected; it is a parameter of the two
    accessors. *)
Definition getRelayStatus (listConnectionStatus : SimplePool -> gmap string bool)
    (c : NostrClient) : gmap string bool :=
  match pool c with
  | None => ∅
  | Some p => listConnectionStatus p
  end.

Definition hasConnectedRelay (listConnectionStatus : SimplePool -> gmap string bool)
    (c : NostrClient) : bool :=
  let status := getRelayStatus listConnectionStatus c in
  existsb (fun connected : bool => connected) (map snd (map_to_list status)).

(** ** Storage backends that behave

    A backend that can be read: [getItem] returns what [view] shows and
    changes nothing.  One that can be written: [setItem] succeeds, the key
    then shows the value and the other keys show what they did.  One that
    refuses writes: [setItem] throws and nothing shown changes. *)
Definition storage_reads `{H : Host} (view : Store -> string -> option string)
    : Prop :=
  forall key s, getItem key s = (Ok (view s key), s).

Definition storage_writes `{H : Host} (view : Store -> string -> option string)
    : Prop :=
  forall key value s,
    exists s', setItem key value s = (Ok tt, s') /\
               view s' key = Some value /\
               forall other, other <> key -> view s' other = view s other.

Definition storage_refuses_writes `{H : Host}
    (view : Store -> string -> option string) : Prop :=
  forall key value s,
    exists e s', setItem key value s = (Throw e, s') /\
                 forall other, view s' other = view s other.

(** What outlives the calls: the storage contents, the number of keys
    generated and the number of pools created. *)
Definition persistent `{H : Host} (w : World) : Store * nat * nat :=
  (w_store w, w_keys w, w_pools w).

(** The world after the calls [es] have been made, in that order. *)
Definition emit_all `{H : Host} (es : list Effect) (w : World) : World :=
  fold_left (fun w0 e => emit e w0) es w.

(** ** Sample hosts

    A storage backend kept in a finite map, which can be made to fail on
    reads or on writes; a toy key encoding; relays that accept according to
    a table. *)
Module Sample.

Definition toy_decode (s : string) : result Decoded :=
  if String.prefix "nsec1" s then
    let body := String.substring 5 (String.length s - 5) s in
    if (String.length body =? 4)%nat
    then Ok (DecodedNsec (list_byte_of_string body))
    else Throw (mkError "Invalid checksum")
  else if String.prefix "npub1" s then Ok (DecodedOther "npub")
  else Throw (mkError "Unknown prefix").

Definition toy_nsecEncode (k : SecretKey) : string :=
  "nsec1" ++ string_of_list_byte k.

Definition toy_generateSecretKey (n : nat) : SecretKey :=
  list_byte_of_string ("key" ++ String (ascii_of_nat (48 + n)) "").

(** The toy curve refuses the key "0000". *)
Definition toy_getPublicKey (k : SecretKey) : result string :=
  if String.eqb (string_of_list_byte k) "0000"
  then Throw (mkError "invalid private key")
  else Ok ("pub:" ++ string_of_list_byte k).

Definition toy_pubkey (k : SecretKey) : string :=
  match toy_getPublicKey k with Ok pk => pk | Throw _ => "" end.

Definition is_url (url : string) : bool :=
  String.prefix "wss://" url || String.prefix "ws://" url.

Definition invalid_url (urls : list string) : option Error :=
  match List.filter (fun url => negb (is_url url)) urls with
  | [] => None
  | url :: _ => Some (mkError ("Invalid URL: " ++ url))
  end.

Definition toy_finalizeEvent (u : UnsignedEvent) (k : SecretKey) : NostrEvent :=
  {| id := "id"; pubkey := toy_pubkey k; created_at := u_created_at u;
     kind := u_kind u; tags := u_tags u; content := u_content u;
     sig := "sig:" ++ string_of_list_byte k |}.

Definition host (reads_fail writes_fail : bool)
    (accepts : nat -> nat -> bool) (subscriptions_fail : bool) : Host :=
  {| Store := gmap string string;
     getItem := fun key s =>
       if reads_fail then (Throw (mkError "SecurityError"), s)
       else (Ok (s !! key), s);
     setItem := fun key value s =>
       if writes_fail then (Throw (mkError "QuotaExceededError"), s)
       else (Ok tt, <[key := value]> s);
     decode := toy_decode;
     nsecEncode := toy_nsecEncode;
     generateSecretKey := toy_generateSecretKey;
     getPublicKey := toy_getPublicKey;
     finalizeEvent := toy_finalizeEvent;
     poolClose_throws := invalid_url;
     poolPublish_throws := fun urls _ => invalid_url urls;
     relayReply := fun round i url ev =>
       {| latency := N.of_nat (10 * (i + 1));
          accepted := accepts round i;
          refusal := "blocked: " ++ url |};
     subscribeMany_throws := fun _ urls _ =>
       if subscriptions_fail then Some (mkError "pool closed")
       else invalid_url urls;
     subscribeManyEose_throws := fun _ urls _ =>
       if subscriptions_fail then Some (mkError "pool closed")
       else invalid_url urls |}.

Definition world0 (hst : Host) (s : @Store hst) : @World hst :=
  {| w_store := s; w_keys := 0; w_pools := 0; w_subs := 0; w_rounds := 0;
     w_now := 1700000000123; w_trace := [] |}.

Definition three_relays : list string :=
  ["wss://relay.damus.io"; "wss://nos.lol"; "wss://relay.nostr.band"].

Definition options : NostrClientOptions :=
  {| o_relays := Some three_relays; o_storageKeyPrefix := None;
     o_publishRetry := None |}.

Definition template : EventTemplate :=
  {| t_kind := 25000; t_tags := [["d"; "my-room"]]; t_content := "{}" |}.

Definition filter : Filter :=
  {| f_ids := None; f_kinds := Some [25000]; f_authors := None;
     f_tagged := [("#d", ["my-room"])]; f_since := None; f_until := None;
     f_limit := None |}.

Definition event (n : Z) : NostrEvent :=
  {| id := "e"; pubkey := "pub:key0"; created_at := n; kind := 25000;
     tags := [["d"; "my-room"]]; content := "{}"; sig := "sig" |}.

End Sample.

(** * Properties *)

Local Open Scope list_scope.

(** ** Strings *)

Lemma prefix_iff_app (p s : string) :
  String.prefix p s = true <-> exists post, s = String.append p post.
Proof.
  revert s. induction p as [|a p IH]; intros s.
  - split; [intros _; exists s; reflexivity | intros _; destruct s; reflexivity].
  - destruct s as [|b s]; cbn [String.prefix].
    + split; [discriminate | intros [post Hpost]; discriminate].
    + destruct (ascii_dec a b) as [->|Hne].
      * rewrite IH. split; intros [post Hpost]; exists post.
        -- rewrite Hpost. reflexivity.
        -- injection Hpost as Hpost. exact Hpost.
      * split; [discriminate | intros [post Hpost]].
        injection Hpost as Hab _. congruence.
Qed.


Lemma append_nil_l (s : string) : String.append "" s = s.
Proof. reflexivity. Qed.

Lemma append_cons (a : ascii) (s t : string) :
  String.append (String a s) t = String a (String.append s t).
Proof. reflexivity. Qed.

Lemma includes_iff_app (s p : string) :
  includes s p = true <->
  exists pre post, s = String.append pre (String.append p post).
Proof.
  induction s as [|a s IH]; cbn [includes].
  - rewrite orb_false_r, prefix_iff_app. split.
    + intros [post Hpost]. exists ""%string, post. exact Hpost.
    + intros [pre [post Heq]]. destruct pre as [|b pre].
      * rewrite append_nil_l in Heq. eauto.
      * rewrite append_cons in Heq. discriminate.
  - rewrite orb_true_iff, prefix_iff_app, IH. split.
    + intros [[post Hpost] | [pre [post Heq]]].
      * exists ""%string, post. exact Hpost.
      * exists (String a pre), post. rewrite append_cons. congruence.
    + intros [pre [post Heq]]. destruct pre as [|b pre].
      * left. rewrite append_nil_l in Heq. eauto.
      * right. rewrite append_cons in Heq. exists pre, post. congruence.
Qed.

Lemma toLowerCase_app (a b : string) :
  toLowerCase (String.append a b) = String.append (toLowerCase a) (toLowerCase b).
Proof.
  induction a as [|x a IH]; [reflexivity|].
  rewrite append_cons. cbn [toLowerCase]. rewrite append_cons, IH. reflexivity.
Qed.

Lemma toLowerCase_split (s x y : string) :
  toLowerCase s = String.append x y ->
  exists a b, s = String.append a b /\ toLowerCase a = x /\ toLowerCase b = y.
Proof.
  revert s. induction x as [|c x IH]; intros s Heq.
  - exists ""%string, s. auto.
  - rewrite append_cons in Heq.
    destruct s as [|d s]; cbn [toLowerCase] in Heq; [discriminate|].
    injection Heq as Hc Hrest. destruct (IH _ Hrest) as (a & b & -> & Ha & Hb).
    exists (String d a), b. rewrite append_cons. cbn [toLowerCase].
    repeat split; congruence.
Qed.

(** The test made by [onclose] on one string is the specification's
    substring test up to letter case. *)
Lemma includes_lower_iff (s marker : string) :
  includes (toLowerCase s) marker = true <-> spec_contains_ci s marker.
Proof.
  rewrite includes_iff_app. unfold spec_contains_ci. split.
  - intros (x & z & Heq).
    destruct (toLowerCase_split _ _ _ Heq) as (pre & rest & -> & Hpre & Hrest).
    destruct (toLowerCase_split _ _ _ Hrest) as (mid & post & -> & Hmid & Hpost).
    eauto.
  - intros (pre & mid & post & -> & Hmid).
    exists (toLowerCase pre), (toLowerCase post).
    now rewrite !toLowerCase_app, Hmid.
Qed.

Lemma hasEose_iff (reasons : list Reason) :
  hasEose reasons = true <-> Exists spec_signals_eose reasons.
Proof.
  unfold hasEose. induction reasons as [|r rest IH]; cbn [existsb].
  - split; [discriminate | intros Hex; inversion Hex].
  - rewrite orb_true_iff, IH, Exists_cons.
    destruct r as [s|t]; cbn [spec_signals_eose].
    + now rewrite includes_lower_iff.
    + split; (intros [Hhd|Htl]; [easy | now right]).
Qed.

Example hasEose_wordings :
  hasEose [RString "EOSE"] = true /\
  hasEose [RString "connection failed"; RString "closed automatically on eose"] = true /\
  hasEose [RString "relay connection closed by us"; RString "timeout"] = false /\
  hasEose [ROther "eose"] = false /\
  hasEose [] = false.
Proof. repeat split; reflexivity. Qed.

(** ** fetch *)

Section FetchProperties.

Context `{H : Host}.

Lemma fetch_run_app (st : FetchState) (xs ys : list Callback) :
  fetch_run st (xs ++ ys) = fetch_run (fetch_run st xs) ys.
Proof. apply fold_left_app. Qed.

(** Events received while the call is pending pile up in order. *)
Lemma fetch_run_events (st : FetchState) (received : list NostrEvent) :
  fetch_run st (map OnEvent received) =
  {| events := events st ++ received; resolved := resolved st; sub := sub st;
     settlements := settlements st; sub_closes := sub_closes st |}.
Proof.
  revert st. induction received as [|e rest IH]; intros st.
  - destruct st; cbn. now rewrite app_nil_r.
  - cbn [map fetch_run fold_left]. fold (fetch_run (fetch_step st (OnEvent e)) (map OnEvent rest)).
    rewrite IH. cbn. now rewrite <- app_assoc.
Qed.

(** On a client that holds a pool, [fetch] opens the subscription, arms the
    timer with the timeout (5000 when omitted) and returns a pending
    promise with nothing received. *)
Lemma fetch_pending (c : NostrClient) (w : World) (filter : Filter)
    (timeoutMs : option JsNumber) (p : SimplePool) :
  pool c = Some p ->
  subscribeManyEose_throws (w_subs w) (relays c) filter = None ->
  fetch filter timeoutMs c w =
  (Ok {| events := []; resolved := false; sub := {| sub_id := w_subs w |};
         settlements := []; sub_closes := 0 |},
   c,
   emit (ESetTimeout (default (Millis 5000) timeoutMs))
     (emit (ESubscribeManyEose p (relays c) filter) (next_sub w))).
Proof.
  intros Hpool Hopen. unfold fetch, bind, this. rewrite Hpool.
  unfold pool_subscribeManyEose. rewrite Hopen. reflexivity.
Qed.

(** C1: on a connected client whose subscription opens, the promise of
    [fetch] is pending at first; when the subscription closes after any
    events, it is fulfilled with the list of the events received exactly
    when some close reason is a string containing "eose" in any letter
    case, and otherwise it is rejected with the no-relay-response error
    that lists the reasons; a completion signal with no event gives the
    empty list. *)
Theorem fetch_resolves_iff_eose (c : NostrClient) (w : World) (filter : Filter)
    (timeoutMs : option JsNumber) (p : SimplePool)
    (Hconnected : pool c = Some p)
    (Hopens : subscribeManyEose_throws (w_subs w) (relays c) filter = None) :
  exists st0 w',
    fetch filter timeoutMs c w = (Ok st0, c, w') /\
    promise st0 = None /\
    forall (received : list NostrEvent) (reasons : list Reason),
      let st := fetch_run st0 (map OnEvent received ++ [OnClose reasons]) in
      (promise st = Some (Ok received) <-> Exists spec_signals_eose reasons) /\
      (~ Exists spec_signals_eose reasons ->
       promise st =
       Some (Throw (mkError (String.append "No relay response: "
                               (join ", " (map render reasons)))))) /\
      (Exists spec_signals_eose reasons -> received = [] ->
       promise st = Some (Ok [])).
Proof.
  eexists _, _. split; [apply (fetch_pending _ _ _ _ _ Hconnected Hopens)|].
  split; [reflexivity|]. intros received reasons st.
  assert (Hst : promise st =
                if hasEose reasons then Some (Ok received)
                else Some (Throw (mkError (String.append "No relay response: "
                                             (join ", " (map render reasons)))))).
  { subst st. rewrite fetch_run_app, fetch_run_events.
    cbn [fetch_run fold_left fetch_step]. unfold onclose, finish.
    destruct (hasEose reasons); reflexivity. }
  rewrite Hst. rewrite <- hasEose_iff.
  destruct (hasEose reasons); repeat split; try congruence; try discriminate.
Qed.

End FetchProperties.

Lemma fetch_resolves_iff_eose_witness :
  let h := Sample.host false false (fun _ _ => true) false in
  let c := set_pool (Some {| pool_id := 0 |})
             (constructor [] Sample.options) in
  let w := Sample.world0 h ∅ in
  pool c = Some {| pool_id := 0 |} /\
  subscribeManyEose_throws (w_subs w) (relays c) Sample.filter = None /\
  exists st0 w',
    fetch Sample.filter None c w = (Ok st0, c, w') /\
    promise st0 = None /\
    forall (received : list NostrEvent) (reasons : list Reason),
      let st := fetch_run st0 (map OnEvent received ++ [OnClose reasons]) in
      (promise st = Some (Ok received) <-> Exists spec_signals_eose reasons) /\
      (~ Exists spec_signals_eose reasons ->
       promise st =
       Some (Throw (mkError (String.append "No relay response: "
                               (join ", " (map render reasons)))))) /\
      (Exists spec_signals_eose reasons -> received = [] ->
       promise st = Some (Ok [])).
Proof.
  intros h c w. split; [reflexivity|]. split; [reflexivity|].
  apply (fetch_resolves_iff_eose (H := h) c w Sample.filter None {| pool_id := 0 |});
    reflexivity.
Defined.

(** *** The latch *)

Lemma fetch_run_cons (st : FetchState) (cb : Callback) (rest : list Callback) :
  fetch_run st (cb :: rest) = fetch_run (fetch_step st cb) rest.
Proof. reflexivity. Qed.

Lemma finish_latched (success : bool) (error : option Error) (st : FetchState) :
  resolved st = true -> finish success error st = st.
Proof. intros Hres. unfold finish. now rewrite Hres. Qed.

Lemma late_completion_noop (st : FetchState) (cb : Callback) :
  resolved st = true -> is_completion cb = true -> fetch_step st cb = st.
Proof.
  intros Hres Hcb. destruct cb as [e|reasons|]; [discriminate| |].
  - cbn [fetch_step]. unfold onclose.
    destruct (hasEose reasons); now apply finish_latched.
  - now apply finish_latched.
Qed.

Lemma late_completions_noop (st : FetchState) (cbs : list Callback) :
  resolved st = true -> forallb is_completion cbs = true -> fetch_run st cbs = st.
Proof.
  intros Hres. induction cbs as [|cb rest IH]; [reflexivity|].
  cbn [forallb]. rewrite andb_true_iff. intros [Hcb Hrest].
  rewrite fetch_run_cons, (late_completion_noop _ _ Hres Hcb).
  now apply IH.
Qed.

(** Once the flag is set, no callback touches the promise or the
    subscription again. *)
Lemma step_latched (st : FetchState) (cb : Callback) :
  resolved st = true ->
  resolved (fetch_step st cb) = true /\
  settlements (fetch_step st cb) = settlements st /\
  sub_closes (fetch_step st cb) = sub_closes st.
Proof.
  intros Hres. destruct cb as [e|reasons|].
  - cbn. auto.
  - rewrite late_completion_noop by easy. auto.
  - rewrite late_completion_noop by easy. auto.
Qed.

Lemma run_latched (st : FetchState) (cbs : list Callback) :
  resolved st = true ->
  resolved (fetch_run st cbs) = true /\
  settlements (fetch_run st cbs) = settlements st /\
  sub_closes (fetch_run st cbs) = sub_closes st.
Proof.
  revert st. induction cbs as [|cb rest IH]; intros st Hres; [auto|].
  rewrite fetch_run_cons.
  destruct (step_latched st cb Hres) as (Hres' & Hset & Hcl).
  destruct (IH _ Hres') as (? & ? & ?). repeat split; congruence.
Qed.

(** The first completion settles the promise and closes the subscription. *)
Lemma first_completion (st : FetchState) (cb : Callback) :
  resolved st = false -> is_completion cb = true ->
  exists s,
    resolved (fetch_step st cb) = true /\
    settlements (fetch_step st cb) = settlements st ++ [s] /\
    sub_closes (fetch_step st cb) = S (sub_closes st).
Proof.
  intros Hres Hcb. destruct cb as [e|reasons|]; [discriminate| |].
  - cbn [fetch_step]. unfold onclose, finish. rewrite Hres.
    destruct (hasEose reasons); eexists; cbn; auto.
  - cbn [fetch_step]. unfold ontimeout, finish. rewrite Hres.
    eexists; cbn; auto.
Qed.

(** From a fresh closure: nothing is settled before the first completion,
    and exactly one settlement and one [sub.close()] have happened after. *)
Lemma run_from_pending (st : FetchState) (cbs : list Callback) :
  resolved st = false -> settlements st = [] -> sub_closes st = 0%nat ->
  let st' := fetch_run st cbs in
  if existsb is_completion cbs
  then resolved st' = true /\ length (settlements st') = 1%nat /\
       sub_closes st' = 1%nat
  else resolved st' = false /\ settlements st' = [] /\ sub_closes st' = 0%nat.
Proof.
  revert st. induction cbs as [|cb rest IH]; intros st Hres Hset Hcl; [cbn; auto|].
  rewrite fetch_run_cons. cbn [existsb]. destruct (is_completion cb) eqn:Hcb.
  - cbn [orb]. destruct (first_completion st cb Hres Hcb) as (s & Hres' & Hset' & Hcl').
    destruct (run_latched _ rest Hres') as (-> & -> & ->).
    rewrite Hset', Hset, Hcl', Hcl. auto.
  - cbn [orb]. destruct cb as [e| |]; try discriminate.
    apply (IH (fetch_step st (OnEvent e))); assumption.
Qed.

(** An event that arrives after the promise was fulfilled settles nothing,
    but it is still pushed onto the array that was handed out. *)
Lemma late_event_is_pushed (st : FetchState) (event : NostrEvent) :
  settlements (fetch_step st (OnEvent event)) = settlements st /\
  events (fetch_step st (OnEvent event)) = events st ++ [event].
Proof. split; reflexivity. Qed.

(** Once the flag is set, neither the relays nor the timer change what was
    done to the promise and to the subscription. *)
Lemma event_loop_latched_all (due now : Z) (arrivals : list (Z * Callback))
    (pending : bool) (st : FetchState) :
  resolved st = true ->
  resolved (event_loop due now arrivals pending st) = true /\
  settlements (event_loop due now arrivals pending st) = settlements st /\
  sub_closes (event_loop due now arrivals pending st) = sub_closes st.
Proof.
  revert pending st. induction arrivals as [|[t cb] rest IH];
    intros pending st Hres; cbn [event_loop].
  - destruct (pending && (due <=? now)); [|auto].
    unfold ontimeout. rewrite finish_latched by exact Hres. auto.
  - assert (Htimer : ontimeout st = st)
      by (unfold ontimeout; now apply finish_latched).
    destruct (step_latched st cb Hres) as (Hres' & Hset' & Hcl').
    destruct (t <=? now).
    + destruct (pending && (due <? t)).
      * rewrite Htimer. destruct (IH false _ Hres') as (? & ? & ?).
        repeat split; congruence.
      * destruct (IH pending _ Hres') as (? & ? & ?).
        repeat split; congruence.
    + destruct (pending && (due <=? now)); [rewrite Htimer|]; auto.
Qed.

Lemma event_loop_latched (due now : Z) (arrivals : list (Z * Callback))
    (pending : bool) (st : FetchState) :
  resolved st = true ->
  settlements (event_loop due now arrivals pending st) = settlements st.
Proof. intros Hres. now apply event_loop_latched_all. Qed.

(** With the timer armed, the promise is settled, once, by the time the
    timer has run, whatever the relays deliver and whenever. *)
Lemma event_loop_settles (due now : Z) (arrivals : list (Z * Callback))
    (st : FetchState) :
  due <= now ->
  resolved st = false -> settlements st = [] -> sub_closes st = 0%nat ->
  let st' := event_loop due now arrivals true st in
  resolved st' = true /\ length (settlements st') = 1%nat /\
  sub_closes st' = 1%nat.
Proof.
  intros Hdue. revert st.
  assert (Hfire : forall st, resolved st = false -> settlements st = [] ->
            sub_closes st = 0%nat ->
            resolved (ontimeout st) = true /\
            length (settlements (ontimeout st)) = 1%nat /\
            sub_closes (ontimeout st) = 1%nat).
  { intros st Hres Hset Hcl.
    destruct (first_completion st OnTimeout Hres eq_refl) as (s & Hr & Hs & Hc).
    cbn [fetch_step] in Hr, Hs, Hc. rewrite Hr, Hs, Hc, Hset, Hcl. auto. }
  induction arrivals as [|[t cb] rest IH]; intros st Hres Hset Hcl;
    cbn [event_loop andb].
  - destruct (Z.leb_spec due now); [|lia]. now apply Hfire.
  - destruct (t <=? now).
    + destruct (due <? t).
      * destruct (Hfire st Hres Hset Hcl) as (Hr & Hs & Hc).
        destruct (step_latched _ cb Hr) as (Hr' & Hs' & Hc').
        destruct (event_loop_latched_all due now rest false _ Hr') as (? & ? & ?).
        repeat split; congruence.
      * destruct (is_completion cb) eqn:Hcb.
        -- destruct (first_completion st cb Hres Hcb) as (s & Hr & Hs & Hc).
           destruct (event_loop_latched_all due now rest true _ Hr) as (? & Hs' & Hc').
           rewrite Hs', Hc', Hs, Hc, Hset, Hcl. auto.
        -- destruct cb as [e| |]; try discriminate. now apply IH.
    + destruct (Z.leb_spec due now); [|lia]. now apply Hfire.
Qed.

(** A pending [fetch] is one whose subscription was opened and whose timer
    was armed with the timeout. *)
Lemma fetch_until_pending `{H : Host} (filter : Filter)
    (timeoutMs : option JsNumber) (c : NostrClient) (w : World) (lag : N)
    (arrivals : list (Z * Callback)) (now : Z) (st : FetchState) :
  fetch_until filter timeoutMs c w lag arrivals now = Ok st ->
  exists st0,
    (fetch filter timeoutMs c w).1.1 = Ok st0 /\
    resolved st0 = false /\ settlements st0 = [] /\ sub_closes st0 = 0%nat /\
    events st0 = [] /\
    st = event_loop (timer_due (default (Millis 5000) timeoutMs) lag) now
           arrivals true st0.
Proof.
  unfold fetch_until, fetch, bind, this, throw, ret, effect.
  destruct (pool c) as [p|]; [|discriminate].
  unfold pool_subscribeManyEose.
  destruct (subscribeManyEose_throws (w_subs w) (relays c) filter);
    [discriminate|].
  cbn [fst snd]. unfold since. cbn [w_trace emit next_sub].
  rewrite <- app_assoc, drop_app_length. cbn.
  intros [= <-]. eexists. repeat split.
Qed.

(** C4, as amended: every call of [fetch] settles its promise at most once,
    and exactly once as soon as a close or the timeout has run; the timeout
    is always armed for a pending call, so by the time the timer has run the
    promise has been settled once and the subscription closed once, whatever
    the relays delivered.  From the first completion on the flag is set and
    the record of settlements and the single [sub.close()] never change; a
    later close or timeout leaves the whole closure, delivered array
    included, as it is; a later event settles nothing, but it is pushed onto
    the array that was handed out. *)
Theorem fetch_settles_exactly_once `{H : Host} (c : NostrClient) (w : World)
    (filter : Filter) (timeoutMs : option JsNumber) :
  let r := (fetch filter timeoutMs c w).1.1 in
  (forall cbs, (length (fetch_settlements r cbs) <= 1)%nat) /\
  (forall cbs, existsb is_completion cbs = true ->
               length (fetch_settlements r cbs) = 1%nat) /\
  (forall lag arrivals now st,
     fetch_until filter timeoutMs c w lag arrivals now = Ok st ->
     timer_due (default (Millis 5000) timeoutMs) lag <= now ->
     resolved st = true /\ length (settlements st) = 1%nat /\
     promise st <> None /\ sub_closes st = 1%nat) /\
  (forall st0, r = Ok st0 ->
     forall before after : list Callback,
       existsb is_completion before = true ->
       let st := fetch_run st0 before in
       resolved st = true /\
       promise st <> None /\
       settlements (fetch_run st0 (before ++ after)) = settlements st /\
       sub_closes (fetch_run st0 (before ++ after)) = 1%nat /\
       (forall cb, is_completion cb = true -> fetch_step st cb = st) /\
       (forallb is_completion after = true ->
        fetch_run st0 (before ++ after) = st) /\
       (forall event,
          settlements (fetch_step st (OnEvent event)) = settlements st /\
          resolved (fetch_step st (OnEvent event)) = true /\
          events (fetch_step st (OnEvent event)) = events st ++ [event])).
Proof.
  intros r.
  assert (Hsettled : forall st, length (settlements st) = 1%nat -> promise st <> None).
  { intros st Hlen. unfold promise.
    destruct (settlements st) as [|[|[e|]] rest]; discriminate. }
  assert (Hfresh : forall st0, r = Ok st0 ->
            resolved st0 = false /\ settlements st0 = [] /\ sub_closes st0 = 0%nat).
  { intros st0. subst r. unfold fetch, bind, this, throw.
    destruct (pool c) as [p|]; [|discriminate].
    unfold pool_subscribeManyEose.
    destruct (subscribeManyEose_throws (w_subs w) (relays c) filter);
      cbn; [discriminate|].
    intros [= <-]. auto. }
  assert (Htimer : forall lag arrivals now st,
            fetch_until filter timeoutMs c w lag arrivals now = Ok st ->
            timer_due (default (Millis 5000) timeoutMs) lag <= now ->
            resolved st = true /\ length (settlements st) = 1%nat /\
            promise st <> None /\ sub_closes st = 1%nat).
  { intros lag arrivals now st Hst Hdue.
    destruct (fetch_until_pending _ _ _ _ _ _ _ _ Hst)
      as (st0 & _ & Hres & Hset & Hcl & _ & ->).
    destruct (event_loop_settles _ now arrivals st0 Hdue Hres Hset Hcl)
      as (Hr & Hlen & Hc).
    repeat split; auto. }
  destruct r as [st0|e].
  - destruct (Hfresh st0 eq_refl) as (Hres & Hset & Hcl).
    split; [|split; [|split]].
    + intros cbs. cbn [fetch_settlements].
      pose proof (run_from_pending st0 cbs Hres Hset Hcl) as Hrun. cbn zeta in Hrun.
      destruct (existsb is_completion cbs).
      * destruct Hrun as (_ & -> & _). lia.
      * destruct Hrun as (_ & -> & _). cbn. lia.
    + intros cbs Hcbs. cbn [fetch_settlements].
      pose proof (run_from_pending st0 cbs Hres Hset Hcl) as Hrun. cbn zeta in Hrun.
      rewrite Hcbs in Hrun. tauto.
    + exact Htimer.
    + intros st1 [= <-] before after Hbefore st.
      pose proof (run_from_pending st0 before Hres Hset Hcl) as Hrun. cbn zeta in Hrun.
      rewrite Hbefore in Hrun. destruct Hrun as (Hres' & Hlen & Hcl').
      fold st in Hres', Hlen, Hcl'.
      rewrite fetch_run_app. fold st.
      destruct (run_latched st after Hres') as (_ & Hset' & Hcl'').
      split; [exact Hres'|]. split; [now apply Hsettled|].
      split; [exact Hset'|]. split; [congruence|].
      split; [intros cb Hcb; now apply late_completion_noop|].
      split; [intros Hafter; now apply late_completions_noop|].
      intros event. cbn. auto.
  - split; [|split; [|split]].
    + intros cbs. cbn. lia.
    + intros cbs _. reflexivity.
    + exact Htimer.
    + intros st0 Heq. discriminate.
Qed.

Lemma fetch_settles_exactly_once_witness :
  let h := Sample.host false false (fun _ _ => true) false in
  let c := set_pool (Some {| pool_id := 0 |}) (constructor [] Sample.options) in
  let w := Sample.world0 h ∅ in
  let timeoutMs := Some (Millis 3000) in
  let r := (fetch (H := h) Sample.filter timeoutMs c w).1.1 in
  (forall cbs, (length (fetch_settlements r cbs) <= 1)%nat) /\
  (forall cbs, existsb is_completion cbs = true ->
               length (fetch_settlements r cbs) = 1%nat) /\
  (forall lag arrivals now st,
     fetch_until Sample.filter timeoutMs c w lag arrivals now = Ok st ->
     timer_due (default (Millis 5000) timeoutMs) lag <= now ->
     resolved st = true /\ length (settlements st) = 1%nat /\
     promise st <> None /\ sub_closes st = 1%nat) /\
  (forall st0, r = Ok st0 ->
     forall before after : list Callback,
       existsb is_completion before = true ->
       let st := fetch_run st0 before in
       resolved st = true /\
       promise st <> None /\
       settlements (fetch_run st0 (before ++ after)) = settlements st /\
       sub_closes (fetch_run st0 (before ++ after)) = 1%nat /\
       (forall cb, is_completion cb = true -> fetch_step st cb = st) /\
       (forallb is_completion after = true ->
        fetch_run st0 (before ++ after) = st) /\
       (forall event,
          settlements (fetch_step st (OnEvent event)) = settlements st /\
          resolved (fetch_step st (OnEvent event)) = true /\
          events (fetch_step st (OnEvent event)) = events st ++ [event])).
Proof.
  intros h c w timeoutMs.
  exact (fetch_settles_exactly_once (H := h) c w Sample.filter timeoutMs).
Defined.

(** C4, as stated, fails: an event that arrives after the promise was
    fulfilled changes the list the caller was given. *)
Lemma late_event_changes_delivered_list :
  let h := Sample.host false false (fun _ _ => true) false in
  let c := set_pool (Some {| pool_id := 0 |}) (constructor [] Sample.options) in
  let closed := [OnEvent (Sample.event 1); OnClose [RString "EOSE"]] in
  exists st0,
    (fetch (H := h) Sample.filter None c (Sample.world0 h ∅)).1.1 = Ok st0 /\
    resolved (fetch_run st0 closed) = true /\
    promise (fetch_run st0 closed) = Some (Ok [Sample.event 1]) /\
    promise (fetch_run st0 (closed ++ [OnEvent (Sample.event 2)])) =
      Some (Ok [Sample.event 1; Sample.event 2]).
Proof. eexists. repeat split. Qed.

(** A timeout that fires first wins over a completion signal that comes
    late, and the other way round. *)
Example fetch_race :
  let st0 := {| events := []; resolved := false; sub := {| sub_id := 0 |};
                settlements := []; sub_closes := 0 |} in
  promise (fetch_run st0 [OnTimeout; OnClose [RString "EOSE"]]) =
    Some (Throw (mkError "No relay response: timeout")) /\
  promise (fetch_run st0 [OnEvent (Sample.event 1); OnClose [RString "EOSE"];
                          OnTimeout; OnClose [RString "closed by caller"]]) =
    Some (Ok [Sample.event 1]).
Proof. split; reflexivity. Qed.

(** *** The timeout *)

Lemma event_loop_timer_gone (due now : Z) (arrivals : list (Z * Callback))
    (st : FetchState) :
  Forall (fun a => is_completion a.2 = false) arrivals ->
  settlements (event_loop due now arrivals false st) = settlements st.
Proof.
  intros Hev. revert st. induction Hev as [|[t cb] rest Hcb _ IH]; intros st.
  - reflexivity.
  - cbn [event_loop andb]. destruct (t <=? now); [|reflexivity].
    rewrite IH. cbn in Hcb. destruct cb; [reflexivity|discriminate..].
Qed.

Lemma event_loop_only_events (due now : Z) (arrivals : list (Z * Callback))
    (st : FetchState) :
  Forall (fun a => is_completion a.2 = false) arrivals ->
  resolved st = false -> settlements st = [] ->
  settlements (event_loop due now arrivals true st) =
  if due <=? now then [Reject (Some timeout_error)] else [].
Proof.
  intros Hev. revert st.
  induction Hev as [|[t cb] rest Hcb Hrest IH]; intros st Hres Hset.
  - cbn [event_loop andb]. destruct (due <=? now); [|exact Hset].
    unfold ontimeout, finish. rewrite Hres. cbn. now rewrite Hset.
  - cbn [event_loop andb]. cbn in Hcb. destruct cb as [e| |]; try discriminate.
    destruct (Z.leb_spec t now) as [Htn|Htn].
    + destruct (Z.ltb_spec due t) as [Hdt|Hdt].
      * rewrite event_loop_timer_gone by exact Hrest.
        cbn. unfold ontimeout, finish. rewrite Hres. cbn. rewrite Hset.
        destruct (Z.leb_spec due now); [reflexivity|lia].
      * apply IH; assumption.
    + destruct (due <=? now); [|exact Hset].
      unfold ontimeout, finish. rewrite Hres. cbn. now rewrite Hset.
Qed.

Lemma fetch_promise_quiet `{H : Host} (c : NostrClient) (w : World)
    (filter : Filter) (timeoutMs : option JsNumber) (p : SimplePool)
    (lag : N) (arrivals : list (Z * Callback)) (now : Z) :
  pool c = Some p ->
  subscribeManyEose_throws (w_subs w) (relays c) filter = None ->
  Forall (fun a => is_completion a.2 = false) arrivals ->
  fetch_promise_at filter timeoutMs c w lag arrivals now =
  if timer_due (default (Millis 5000) timeoutMs) lag <=? now
  then Some (Throw timeout_error) else None.
Proof.
  intros Hpool Hopens Hquiet. unfold fetch_promise_at.
  destruct (fetch_until filter timeoutMs c w lag arrivals now) as [st|e] eqn:Hst.
  - destruct (fetch_until_pending _ _ _ _ _ _ _ _ Hst)
      as (st0 & _ & Hres & Hset & _ & _ & ->).
    unfold promise.
    rewrite (event_loop_only_events _ now arrivals st0 Hquiet Hres Hset).
    destruct (_ <=? now); reflexivity.
  - unfold fetch_until in Hst.
    rewrite (fetch_pending c w filter timeoutMs p Hpool Hopens) in Hst.
    discriminate.
Qed.

(** C5, as amended: take a [fetch] on a connected client with a timeout of
    [ms] milliseconds, at most 2147483647 (5000 when the argument is
    omitted), against relays that deliver events at most, never a completion
    signal and never a close.  The timer is armed with [ms].  The promise is
    pending at every time before [ms], and in fact until the host runs the
    timer, [lag] after the delay (a delay below 1 counts as 1); from then on
    it is rejected with the timeout error.  So on a host that runs timers
    within [tolerance] of their delay, the call has been rejected by [ms]
    plus [tolerance]. *)
Theorem fetch_times_out `{H : Host} (c : NostrClient) (w : World)
    (filter : Filter) (timeoutMs : option JsNumber) (p : SimplePool) (ms : Z)
    (Hconnected : pool c = Some p)
    (Hopens : subscribeManyEose_throws (w_subs w) (relays c) filter = None)
    (Hms : default (Millis 5000) timeoutMs = Millis ms)
    (Hrange : ms <= TIMEOUT_MAX) :
  (timeoutMs = None -> ms = 5000) /\
  (exists st0 w',
     fetch filter timeoutMs c w = (Ok st0, c, w') /\
     last (w_trace w') = Some (ESetTimeout (Millis ms)) /\
     armed_timer (since w w') = Some (Millis ms)) /\
  forall (arrivals : list (Z * Callback)) (lag : N),
    Forall (fun a => is_completion a.2 = false) arrivals ->
    (forall now, now < ms ->
       fetch_promise_at filter timeoutMs c w lag arrivals now = None) /\
    (forall now, now < Z.max 1 ms + Z.of_N lag ->
       fetch_promise_at filter timeoutMs c w lag arrivals now = None) /\
    (forall now, Z.max 1 ms + Z.of_N lag <= now ->
       fetch_promise_at filter timeoutMs c w lag arrivals now =
       Some (Throw timeout_error)) /\
    (forall now tolerance,
       Z.of_N lag <= tolerance -> Z.max 1 ms + tolerance <= now ->
       fetch_promise_at filter timeoutMs c w lag arrivals now =
       Some (Throw timeout_error)).
Proof.
  assert (Hdue : forall lag,
            timer_due (default (Millis 5000) timeoutMs) lag
            = Z.max 1 ms + Z.of_N lag).
  { intros lag. rewrite Hms. unfold timer_due, setTimeout_delay.
    destruct (Z.leb_spec 1 ms), (Z.leb_spec ms TIMEOUT_MAX); cbn [andb]; lia. }
  split; [intros ->; cbn in Hms; congruence|]. split.
  - eexists _, _.
    split; [apply (fetch_pending _ _ _ _ _ Hconnected Hopens)|].
    rewrite Hms. split; [cbn [emit w_trace]; apply last_snoc|].
    unfold since. cbn [w_trace emit next_sub].
    rewrite <- app_assoc, drop_app_length. reflexivity.
  - intros arrivals lag Hquiet.
    assert (Hat : forall now,
              fetch_promise_at filter timeoutMs c w lag arrivals now =
              if Z.max 1 ms + Z.of_N lag <=? now
              then Some (Throw timeout_error) else None).
    { intros now.
      rewrite (fetch_promise_quiet c w filter timeoutMs p lag arrivals now
                 Hconnected Hopens Hquiet), Hdue. reflexivity. }
    repeat split; intros now; rewrite Hat.
    + intros Hnow. destruct (Z.leb_spec (Z.max 1 ms + Z.of_N lag) now); [lia|reflexivity].
    + intros Hnow. destruct (Z.leb_spec (Z.max 1 ms + Z.of_N lag) now); [lia|reflexivity].
    + intros Hnow. destruct (Z.leb_spec (Z.max 1 ms + Z.of_N lag) now); [reflexivity|lia].
    + intros tolerance Hlag Hnow.
      destruct (Z.leb_spec (Z.max 1 ms + Z.of_N lag) now); [reflexivity|lia].
Qed.

Lemma fetch_times_out_witness :
  let h := Sample.host false false (fun _ _ => true) false in
  let c := set_pool (Some {| pool_id := 0 |}) (constructor [] Sample.options) in
  let w := Sample.world0 h ∅ in
  let filter := Sample.filter in
  let timeoutMs : option JsNumber := None in
  let ms := 5000 in
  pool c = Some {| pool_id := 0 |} /\
  subscribeManyEose_throws (w_subs w) (relays c) filter = None /\
  default (Millis 5000) timeoutMs = Millis ms /\
  ms <= TIMEOUT_MAX /\
  (timeoutMs = None -> ms = 5000) /\
  (exists st0 w',
     fetch filter timeoutMs c w = (Ok st0, c, w') /\
     last (w_trace w') = Some (ESetTimeout (Millis ms)) /\
     armed_timer (since w w') = Some (Millis ms)) /\
  forall (arrivals : list (Z * Callback)) (lag : N),
    Forall (fun a => is_completion a.2 = false) arrivals ->
    (forall now, now < ms ->
       fetch_promise_at filter timeoutMs c w lag arrivals now = None) /\
    (forall now, now < Z.max 1 ms + Z.of_N lag ->
       fetch_promise_at filter timeoutMs c w lag arrivals now = None) /\
    (forall now, Z.max 1 ms + Z.of_N lag <= now ->
       fetch_promise_at filter timeoutMs c w lag arrivals now =
       Some (Throw timeout_error)) /\
    (forall now tolerance,
       Z.of_N lag <= tolerance -> Z.max 1 ms + tolerance <= now ->
       fetch_promise_at filter timeoutMs c w lag arrivals now =
       Some (Throw timeout_error)).
Proof.
  intros h c w filter timeoutMs ms.
  split; [reflexivity|]. split; [reflexivity|]. split; [reflexivity|].
  split; [unfold ms, TIMEOUT_MAX; lia|].
  apply (fetch_times_out (H := h) c w filter timeoutMs {| pool_id := 0 |} ms);
    try reflexivity.
  unfold ms, TIMEOUT_MAX; lia.
Defined.

(** C5, as stated, fails: a timeout above 2147483647 ms is run by the host
    as a delay of 1 ms, so the call is rejected long before the timeout it
    was given has elapsed. *)
Lemma huge_timeout_runs_at_once :
  let h := Sample.host false false (fun _ _ => true) false in
  let c := set_pool (Some {| pool_id := 0 |}) (constructor [] Sample.options) in
  let w := Sample.world0 h ∅ in
  1 < 2147483648 /\
  fetch_promise_at (H := h) Sample.filter (Some (Millis 2147483648)) c w 0 [] 0
    = None /\
  fetch_promise_at (H := h) Sample.filter (Some (Millis 2147483648)) c w 0 [] 1
    = Some (Throw timeout_error).
Proof. repeat split. Qed.

Example fetch_timeout_clock :
  let st0 := {| events := []; resolved := false; sub := {| sub_id := 0 |};
                settlements := []; sub_closes := 0 |} in
  let arrivals := [(100, OnEvent (Sample.event 1)); (4000, OnEvent (Sample.event 2))] in
  promise (event_loop (timer_due (Millis 3000) 0) 2999 arrivals true st0) = None /\
  promise (event_loop (timer_due (Millis 3000) 0) 3000 arrivals true st0) =
    Some (Throw timeout_error) /\
  promise (event_loop (timer_due (Millis 3000) 2) 3001 arrivals true st0) = None /\
  promise (event_loop (timer_due (Millis 3000) 2) 5000 arrivals true st0) =
    Some (Throw timeout_error) /\
  timer_due NaN 0 = 1 /\ timer_due (Infinity false) 0 = 1 /\
  timer_due (Millis 0) 0 = 1.
Proof. repeat split; reflexivity. Qed.

(** ** connect and disconnect *)

(** C7: [connect()] on a client that is already connected returns at once:
    the client (keys, pool, flag) and the world (storage contents and the
    trace of calls, so no storage access) are the same as before. *)
Theorem connect_idempotent `{H : Host} (c : NostrClient) (w : World)
    (Hconnected : _isConnected c = true) :
  connect c w = (Ok tt, c, w).
Proof. run_method. rewrite Hconnected. reflexivity. Qed.

Lemma connect_idempotent_witness :
  let h := Sample.host false false (fun _ _ => true) false in
  let s := connect (H := h) (constructor [] Sample.options) (Sample.world0 h ∅) in
  _isConnected s.1.2 = true /\
  connect (H := h) s.1.2 s.2 = (Ok tt, s.1.2, s.2).
Proof.
  intros h s. split; [reflexivity|].
  apply (connect_idempotent (H := h) s.1.2 s.2). reflexivity.
Defined.

(** A newly generated key is kept even when writing it to storage throws. *)
Lemma generate_and_store_eq `{H : Host} (nsecKey : string) (c : NostrClient)
    (w : World) :
  let sk := generateSecretKey (w_keys w) in
  generate_and_store nsecKey c w =
  (Ok tt, set_secretKey sk c,
   emit (ESetItem nsecKey (nsecEncode sk))
     (set_store (setItem nsecKey (nsecEncode sk) (w_store w)).2
        (emit EGenerateSecretKey (next_key w)))).
Proof.
  intros sk. run_method. cbn. fold sk.
  destruct (setItem nsecKey (nsecEncode sk) (w_store w)) as [[[]|e] s2];
    reflexivity.
Qed.

Lemma connect_reuse `{H : Host} (c : NostrClient) (w : World) (s : string)
    (k : SecretKey) (store1 : Store) :
  let nsecKey := String.append (storageKeyPrefix c) "-nsec" in
  _isConnected c = false ->
  getItem nsecKey (w_store w) = (Ok (Some s), store1) ->
  startsWith s "nsec1" = true ->
  decode s = Ok (DecodedNsec k) ->
  connect c w =
  connect_outcome k c (emit (EGetItem nsecKey) (set_store store1 w)).
Proof.
  intros nsecKey Hfresh Hget Hprefix Hdecode.
  unfold connect, storage_getItem, nip19_decode, new_SimplePool,
    derive_publicKey, try_catch, bind, this, ret, throw, assign, effect.
  rewrite Hfresh. fold nsecKey. rewrite Hget, Hprefix, Hdecode.
  unfold connect_outcome. cbn. destruct (getPublicKey k); reflexivity.
Qed.

Lemma connect_regenerate `{H : Host} (c : NostrClient) (w : World)
    (stored : option string) (store1 : Store) :
  let nsecKey := String.append (storageKeyPrefix c) "-nsec" in
  let sk := generateSecretKey (w_keys w) in
  _isConnected c = false ->
  getItem nsecKey (w_store w) = (Ok stored, store1) ->
  (stored = None \/
   exists s, stored = Some s /\
             (startsWith s "nsec1" = false \/
              forall k, decode s <> Ok (DecodedNsec k))) ->
  connect c w =
  connect_outcome sk c
    (emit (ESetItem nsecKey (nsecEncode sk))
       (set_store (setItem nsecKey (nsecEncode sk) store1).2
          (emit EGenerateSecretKey
             (next_key (emit (EGetItem nsecKey) (set_store store1 w)))))).
Proof.
  intros nsecKey sk Hfresh Hget Hcase.
  unfold connect, storage_getItem, nip19_decode, new_SimplePool,
    derive_publicKey, try_catch, bind, this, ret, throw, assign, effect.
  rewrite Hfresh. fold nsecKey. rewrite Hget.
  destruct Hcase as [->|(s & -> & Hbad)].
  - rewrite generate_and_store_eq. unfold connect_outcome. cbn. fold sk.
    destruct (getPublicKey sk); reflexivity.
  - destruct (startsWith s "nsec1") eqn:Hprefix.
    + destruct Hbad as [Hno|Hbad]; [discriminate|].
      destruct (decode s) as [[k|ty]|e] eqn:Hdecode.
      * now destruct (Hbad k).
      * rewrite generate_and_store_eq. unfold connect_outcome. cbn. fold sk.
        destruct (getPublicKey sk); reflexivity.
      * rewrite generate_and_store_eq. unfold connect_outcome. cbn. fold sk.
        destruct (getPublicKey sk); reflexivity.
    + rewrite generate_and_store_eq. unfold connect_outcome. cbn. fold sk.
      destruct (getPublicKey sk); reflexivity.
Qed.

Lemma connect_ephemeral `{H : Host} (c : NostrClient) (w : World) (e : Error)
    (store1 : Store) :
  let nsecKey := String.append (storageKeyPrefix c) "-nsec" in
  let sk := generateSecretKey (w_keys w) in
  _isConnected c = false ->
  getItem nsecKey (w_store w) = (Throw e, store1) ->
  connect c w =
  connect_outcome sk c
    (emit EGenerateSecretKey
       (next_key (emit (EGetItem nsecKey) (set_store store1 w)))).
Proof.
  intros nsecKey sk Hfresh Hget. run_method.
  rewrite Hfresh. fold nsecKey. rewrite Hget.
  unfold connect_outcome. cbn. fold sk.
  destruct (getPublicKey sk); reflexivity.
Qed.

(** Whether a stored text is a key [connect] will reuse. *)
Lemma stored_key_cases `{H : Host} (stored : option string) :
  (exists s k, stored = Some s /\ startsWith s "nsec1" = true /\
               decode s = Ok (DecodedNsec k)) \/
  (stored = None \/
   exists s, stored = Some s /\
             (startsWith s "nsec1" = false \/
              forall k, decode s <> Ok (DecodedNsec k))).
Proof.
  destruct stored as [s|]; [|now right; left].
  destruct (startsWith s "nsec1") eqn:Hprefix; [|right; right; eauto].
  destruct (decode s) as [[k|ty]|e] eqn:Hdecode.
  - left. eauto.
  - right. right. exists s. split; [reflexivity|]. right. intros k. congruence.
  - right. right. exists s. split; [reflexivity|]. right. intros k. congruence.
Qed.

(** C3 fails on the code: when the storage holds a text that starts with
    "nsec1" and decodes to an nsec key from which no public key can be
    derived, [connect()] throws the error of [getPublicKey], which is called
    outside every [try], and leaves the client unconnected: the stored key
    has been assigned, but there is no pool, the flag is not set and the
    public key is what it was. *)
Theorem connect_aborts_on_invalid_stored_key `{H : Host} (c : NostrClient)
    (w : World) (s : string) (k : SecretKey) (store1 : Store) (e : Error)
    (Hfresh : _isConnected c = false)
    (Hget : getItem (String.append (storageKeyPrefix c) "-nsec") (w_store w)
            = (Ok (Some s), store1))
    (Hprefix : startsWith s "nsec1" = true)
    (Hdecode : decode s = Ok (DecodedNsec k))
    (Hinvalid : getPublicKey k = Throw e) :
  let r := connect c w in
  r.1.1 = Throw e /\
  isConnected r.1.2 = false /\
  pool r.1.2 = pool c /\
  publicKey r.1.2 = publicKey c /\
  secretKey r.1.2 = Some k /\
  w_trace r.2 =
    w_trace w ++ [EGetItem (String.append (storageKeyPrefix c) "-nsec")].
Proof.
  intros r. subst r.
  rewrite (connect_reuse c w s k store1 Hfresh Hget Hprefix Hdecode).
  unfold connect_outcome. rewrite Hinvalid. cbn.
  unfold isConnected, publicKey. repeat split. exact Hfresh.
Qed.

Lemma connect_aborts_on_invalid_stored_key_witness :
  let h := Sample.host false false (fun _ _ => true) false in
  let c := constructor [] Sample.options in
  let stored : gmap string string :=
    {[ "nostr-battle-nsec"%string := "nsec10000"%string ]} in
  let w := Sample.world0 h stored in
  let k := list_byte_of_string "0000" in
  let e := mkError "invalid private key" in
  _isConnected c = false /\
  getItem (Host := h) (String.append (storageKeyPrefix c) "-nsec") (w_store w)
    = (Ok (Some "nsec10000"%string), stored) /\
  startsWith "nsec10000" "nsec1" = true /\
  decode (Host := h) "nsec10000" = Ok (DecodedNsec k) /\
  getPublicKey (Host := h) k = Throw e /\
  let r := connect c w in
  r.1.1 = Throw e /\
  isConnected r.1.2 = false /\
  pool r.1.2 = pool c /\
  publicKey r.1.2 = publicKey c /\
  secretKey r.1.2 = Some k /\
  w_trace r.2 =
    w_trace w ++ [EGetItem (String.append (storageKeyPrefix c) "-nsec")].
Proof.
  intros h c stored w k e.
  split; [reflexivity|]. split; [reflexivity|]. split; [reflexivity|].
  split; [reflexivity|]. split; [reflexivity|].
  apply (connect_aborts_on_invalid_stored_key (H := h) c w "nsec10000" k stored e);
    reflexivity.
Defined.

(** The three ways of getting a key, on sample backends: a stored key is
    reused; a corrupt entry is replaced, also when the write fails; a backend
    that throws on reads gives a key that is kept in memory only; a stored
    key that the curve refuses makes [connect] throw. *)
Example connect_on_sample_backends :
  let c := constructor [] Sample.options in
  let good := Sample.host false false (fun _ _ => true) false in
  let full := Sample.host false true (fun _ _ => true) false in
  let down := Sample.host true true (fun _ _ => true) false in
  let stored : gmap string string := {[ "nostr-battle-nsec" := "nsec1abcd" ]} in
  let corrupt : gmap string string := {[ "nostr-battle-nsec" := "nsec1???" ]} in
  let invalid : gmap string string := {[ "nostr-battle-nsec" := "nsec10000" ]} in
  secretKey (connect (H := good) c (Sample.world0 good stored)).1.2
    = Some (list_byte_of_string "abcd") /\
  secretKey (connect (H := good) c (Sample.world0 good corrupt)).1.2
    = Some (list_byte_of_string "key0") /\
  w_store (connect (H := good) c (Sample.world0 good corrupt)).2
    !! "nostr-battle-nsec" = Some "nsec1key0" /\
  secretKey (connect (H := full) c (Sample.world0 full corrupt)).1.2
    = Some (list_byte_of_string "key0") /\
  w_store (connect (H := full) c (Sample.world0 full corrupt)).2
    !! "nostr-battle-nsec" = Some "nsec1???" /\
  (connect (H := down) c (Sample.world0 down stored)).1.1 = Ok tt /\
  secretKey (connect (H := down) c (Sample.world0 down stored)).1.2
    = Some (list_byte_of_string "key0") /\
  (connect (H := good) c (Sample.world0 good invalid)).1.1
    = Throw (mkError "invalid private key") /\
  _isConnected (connect (H := good) c (Sample.world0 good invalid)).1.2 = false.
Proof. repeat split; vm_compute; reflexivity. Qed.

(** On a client that is not connected, choosing the key never throws; what
    follows is [connect_outcome]. *)
Lemma connect_cases `{H : Host} (c : NostrClient) (w : World) :
  _isConnected c = false ->
  exists sk w1,
    connect c w = connect_outcome sk c w1 /\
    w_pools w1 = w_pools w.
Proof.
  intros Hfresh.
  destruct (getItem (String.append (storageKeyPrefix c) "-nsec") (w_store w))
    as [[stored|e] store1] eqn:Hget.
  - destruct (stored_key_cases stored) as [(s & k & -> & Hprefix & Hdecode)|Hbad].
    + eexists _, _.
      split; [exact (connect_reuse c w s k store1 Hfresh Hget Hprefix Hdecode)|].
      reflexivity.
    + eexists _, _.
      split; [exact (connect_regenerate c w stored store1 Hfresh Hget Hbad)|].
      reflexivity.
  - eexists _, _.
    split; [exact (connect_ephemeral c w e store1 Hfresh Hget)|]. reflexivity.
Qed.

Lemma disconnect_eq `{H : Host} (c : NostrClient) (w : World) :
  disconnect c w =
  match pool c with
  | None => (Ok tt, disconnected c, w)
  | Some p =>
      match poolClose_throws (relays c) with
      | Some e => (Throw e, c, emit (EPoolClose p (relays c)) w)
      | None => (Ok tt, disconnected c, emit (EPoolClose p (relays c)) w)
      end
  end.
Proof.
  run_method. unfold disconnected. destruct (pool c); [|reflexivity].
  destruct (poolClose_throws (relays c)); reflexivity.
Qed.

(** ** The other methods leave the client's fields alone *)

Lemma retry_loop_client `{H : Host} {A} (fn : M A) (retries : nat)
    (delay cap : Z) (c : NostrClient) (w : World) :
  (forall c0 w0, (fn c0 w0).1.2 = c0) ->
  (retry_loop fn retries delay cap c w).1.2 = c.
Proof.
  intros Hfn. revert delay w. induction retries as [|n IH]; intros delay w.
  - cbn [retry_loop]. specialize (Hfn c w).
    destruct (fn c w) as [[[a|e] c'] w']; exact Hfn.
  - cbn [retry_loop]. pose proof (Hfn c w) as Hc.
    destruct (fn c w) as [[[a|e] c'] w']; cbn in Hc; subst c'; [reflexivity|].
    apply IH.
Qed.

Lemma publish_attempt_client `{H : Host} (event : NostrEvent) (c : NostrClient)
    (w : World) :
  (publish_attempt event c w).1.2 = c.
Proof.
  unfold publish_attempt, pool_publish, Promise_any, bind, this, throw, update.
  destruct (pool c); [|reflexivity].
  destruct (poolPublish_throws _ _); [reflexivity|].
  destruct (first_accept _); reflexivity.
Qed.

Lemma publish_client `{H : Host} (t : EventTemplate) (c : NostrClient) (w : World) :
  (publish t c w).1.2 = c.
Proof.
  unfold publish, withRetry, bind, this, throw, world, effect.
  destruct (pool c); [|reflexivity]. destruct (secretKey c); [|reflexivity].
  apply retry_loop_client. intros c0 w0. apply publish_attempt_client.
Qed.

Lemma subscribe_client `{H : Host} (filters : list Filter) (c : NostrClient)
    (w : World) :
  (subscribe filters c w).1.2 = c.
Proof.
  unfold subscribe, pool_subscribeMany, try_catch, bind, this, ret, effect.
  destruct (pool c); [|reflexivity]. destruct filters; [reflexivity|].
  destruct (subscribeMany_throws _ _ _); reflexivity.
Qed.

Lemma fetch_client `{H : Host} (filter : Filter) (timeoutMs : option JsNumber)
    (c : NostrClient) (w : World) :
  (fetch filter timeoutMs c w).1.2 = c.
Proof.
  unfold fetch, pool_subscribeManyEose, bind, this, ret, throw, effect.
  destruct (pool c); [|reflexivity].
  destruct (subscribeManyEose_throws _ _ _); reflexivity.
Qed.

Lemma ignore_eq `{H : Host} {A} (m : M A) (c : NostrClient) (w : World) :
  ignore m c w = (Ok tt, (m c w).1.2, (m c w).2).
Proof.
  unfold ignore, try_catch, bind, ret.
  destruct (m c w) as [[[a|e] c'] w']; reflexivity.
Qed.

(** A call other than [connect] returns to the caller with the client as it
    was, or as [disconnect] leaves it. *)
Lemma call_other `{H : Host} (k : Call) (c : NostrClient) (w : World) :
  is_connect k = false ->
  exists c' w',
    call k c w = (Ok tt, c', w') /\ (c' = c \/ c' = disconnected c).
Proof.
  intros Hk. destruct k as [| |t|fs|u|f tm]; try discriminate; cbn [call];
    rewrite ignore_eq; eexists _, _; (split; [reflexivity|]).
  - rewrite disconnect_eq. destruct (pool c); [|now right].
    destruct (poolClose_throws (relays c)); [now left|now right].
  - left. apply publish_client.
  - left. apply subscribe_client.
  - left. destruct u; reflexivity.
  - left. apply fetch_client.
Qed.

Lemma connect_again `{H : Host} (c : NostrClient) (w : World) :
  _isConnected c = true -> connect c w = (Ok tt, c, w).
Proof. intros Hconn. run_method. now rewrite Hconn. Qed.

(** [connect], as the caller sees it: nothing happens on a connected client;
    otherwise a key is put in place and either the client is connected with
    the public key derived from it, or deriving it threw and the client is
    left not connected. *)
Lemma call_connect `{H : Host} (c : NostrClient) (w : World) :
  exists c' w',
    call CallConnect c w = (Ok tt, c', w') /\
    ((_isConnected c = true /\ c' = c) \/
     (exists sk pk p, getPublicKey sk = Ok pk /\ c' = connected_with sk pk p c) \/
     (exists sk, _isConnected c = false /\ c' = set_secretKey sk c)).
Proof.
  cbn [call]. rewrite ignore_eq. eexists _, _. split; [reflexivity|].
  destruct (_isConnected c) eqn:Hconn.
  - left. rewrite (connect_again c w Hconn). auto.
  - right. destruct (connect_cases c w Hconn) as (sk & w1 & -> & _).
    unfold connect_outcome. destruct (getPublicKey sk) as [pk|e] eqn:Hpk.
    + left. eauto.
    + right. eauto.
Qed.

(** ** publish *)

Lemma first_accept_none (replies : list RelayReply) :
  first_accept replies = None <-> existsb accepted replies = false.
Proof.
  induction replies as [|r rest IH]; [easy|].
  cbn [first_accept existsb].
  destruct (first_accept rest) as [t|], (accepted r); cbn [orb];
    try exact IH; split; discriminate.
Qed.

(** [Promise.any] settles with the earliest acceptance. *)
Lemma first_accept_earliest (replies : list RelayReply) (t : N) :
  first_accept replies = Some t ->
  (exists r, In r replies /\ accepted r = true /\ latency r = t) /\
  (forall r, In r replies -> accepted r = true -> (t <= latency r)%N).
Proof.
  revert t. induction replies as [|r rest IH]; intros t; [discriminate|].
  cbn [first_accept].
  destruct (first_accept rest) as [t'|] eqn:Hrest.
  - destruct (IH t' eq_refl) as ((r' & Hin & Hacc & Hlat) & Hmin).
    destruct (accepted r) eqn:Hr; intros [= <-].
    + split.
      * destruct (N.min_spec (latency r) t') as [[_ ->]|[_ ->]].
        -- exists r. cbn. auto.
        -- exists r'. cbn. auto.
      * intros r0 [<-|Hin0] Hacc0; [lia|].
        specialize (Hmin r0 Hin0 Hacc0). lia.
    + split.
      * exists r'. cbn. auto.
      * intros r0 [<-|Hin0] Hacc0; [congruence|]. now apply Hmin.
  - destruct (accepted r) eqn:Hr; [|discriminate]. intros [= <-]. split.
    + exists r. cbn. auto.
    + intros r0 [<-|Hin0] Hacc0; [lia|].
      apply first_accept_none in Hrest.
      assert (Hex : existsb accepted rest = true)
        by (apply existsb_exists; eauto).
      congruence.
Qed.

Lemma publish_attempt_eq `{H : Host} (ev : NostrEvent) (c : NostrClient)
    (w : World) (p : SimplePool) :
  pool c = Some p ->
  poolPublish_throws (relays c) ev = None ->
  let replies := replies_of (w_rounds w) (relays c) ev in
  let sent := emit (EPoolPublish p (relays c) ev) (next_round w) in
  publish_attempt ev c w =
  match first_accept replies with
  | Some t => (Ok tt, c, advance (Z.of_N t) sent)
  | None =>
      (Throw (AggregateError (map refusal replies)), c,
       advance (Z.of_N (last_reply replies)) sent)
  end.
Proof.
  intros Hpool Hurls replies sent.
  unfold publish_attempt, pool_publish, Promise_any, bind, this, throw, update.
  rewrite Hpool, Hurls. fold (replies_of (w_rounds w) (relays c) ev). fold replies.
  destruct (first_accept replies); reflexivity.
Qed.

Lemma backoff_delays_bounded (n : nat) (delay cap : Z) :
  Forall (fun d => d <= Z.max delay cap) (backoff_delays n delay cap).
Proof.
  revert delay. induction n as [|n IH]; intros delay; cbn [backoff_delays].
  - constructor.
  - constructor; [lia|].
    eapply Forall_impl; [apply IH|]. cbn. intros d Hd. lia.
Qed.

(** The attempts of [publish]: [n] attempts refused by every relay, each
    followed by a wait, and then a last one, which either some relay accepts
    or which uses up the budget. *)
Lemma retry_loop_publish `{H : Host} (ev : NostrEvent) (c : NostrClient)
    (p : SimplePool) (cap : Z) (Hpool : pool c = Some p)
    (Hurls : poolPublish_throws (relays c) ev = None) :
  forall (retries : nat) (delay : Z) (w : World),
  exists n r w',
    retry_loop (publish_attempt ev) retries delay cap c w = (r, c, w') /\
    (n <= retries)%nat /\
    (forall k, (k < n)%nat ->
       existsb accepted (replies_of (w_rounds w + k) (relays c) ev) = false) /\
    w_trace w' =
      w_trace w ++ retry_trace (EPoolPublish p (relays c) ev)
                     (backoff_delays n delay cap) /\
    ((r = Ok tt /\
      existsb accepted (replies_of (w_rounds w + n) (relays c) ev) = true) \/
     ((exists errs, r = Throw (AggregateError errs)) /\
      existsb accepted (replies_of (w_rounds w + n) (relays c) ev) = false /\
      n = retries)).
Proof.
  induction retries as [|m IH]; intros delay w; cbn [retry_loop];
    rewrite (publish_attempt_eq ev c w p Hpool Hurls);
    destruct (first_accept (replies_of (w_rounds w) (relays c) ev)) as [t|] eqn:Hfirst.
  - exists 0%nat. eexists _, _. split; [reflexivity|]. split; [lia|].
    split; [intros k Hk; lia|]. split; [reflexivity|].
    left. split; [reflexivity|]. rewrite Nat.add_0_r.
    destruct (existsb accepted _) eqn:Hex; [reflexivity|].
    apply first_accept_none in Hex. congruence.
  - exists 0%nat. eexists _, _. split; [reflexivity|]. split; [lia|].
    split; [intros k Hk; lia|]. split; [reflexivity|].
    right. rewrite Nat.add_0_r. split; [eauto|]. split; [|reflexivity].
    now apply first_accept_none.
  - exists 0%nat. eexists _, _. split; [reflexivity|]. split; [lia|].
    split; [intros k Hk; lia|]. split; [reflexivity|].
    left. split; [reflexivity|]. rewrite Nat.add_0_r.
    destruct (existsb accepted _) eqn:Hex; [reflexivity|].
    apply first_accept_none in Hex. congruence.
  - match goal with
    | |- context [retry_loop _ m ?d cap c ?w2] =>
        destruct (IH d w2) as (n & r & w' & Heq & Hle & Hrej & Htrace & Hlast)
    end.
    exists (S n), r, w'. split; [exact Heq|]. split; [lia|].
    cbn [w_rounds advance emit next_round] in Hrej, Hlast.
    split; [|split].
    + intros [|k] Hk.
      * rewrite Nat.add_0_r. now apply first_accept_none.
      * rewrite Nat.add_succ_r. apply Hrej. lia.
    + rewrite Htrace. cbn [w_trace advance emit next_round backoff_delays].
      unfold retry_trace. cbn [flat_map]. rewrite <- !app_assoc. reflexivity.
    + rewrite Nat.add_succ_r. destruct Hlast as [Hok|(Herr & Hno & ->)]; auto.
Qed.




(** Three relays.  When only the second accepts, [publish] resolves after one
    send, at the second relay's latency and without waiting for the third.
    When all refuse the first round and one accepts the second, it resolves
    after a wait of the initial delay.  When all always refuse, it fails
    after three sends and waits of 1000 and 2000 ms. *)
Example publish_on_sample_relays :
  let run := fun accepts =>
    let h := Sample.host false false accepts false in
    let c := connected_with (list_byte_of_string "key0") "pub:key0"
               {| pool_id := 0 |} (constructor [] Sample.options) in
    let s := publish (H := h) Sample.template c (Sample.world0 h ∅) in
    (s.1.1, map is_send (w_trace s.2), sleeps (w_trace s.2),
     w_now s.2 - 1700000000123) in
  run (fun _ i => Nat.eqb i 1) = (Ok tt, [false; true], [], 20) /\
  run (fun round _ => Nat.eqb round 1) =
    (Ok tt, [false; true; false; true], [1000], 30 + 1000 + 10) /\
  run (fun _ _ => false) =
    (Throw (AggregateError ["blocked: wss://relay.damus.io";
                            "blocked: wss://nos.lol";
                            "blocked: wss://relay.nostr.band"]),
     [false; true; false; true; false; true], [1000; 2000],
     30 + 1000 + 30 + 2000 + 30).
Proof. repeat split; vm_compute; reflexivity. Qed.

(** ** Not connected *)

Lemma publish_not_connected `{H : Host} (t : EventTemplate) (c : NostrClient)
    (w : World) :
  pool c = None \/ secretKey c = None ->
  publish t c w = (Throw NotConnected, c, w).
Proof.
  intros Hnot. unfold publish, bind, this, throw.
  destruct (pool c), (secretKey c), Hnot; try discriminate; reflexivity.
Qed.

Lemma fetch_not_connected `{H : Host} (filter : Filter) (timeoutMs : option JsNumber)
    (c : NostrClient) (w : World) :
  pool c = None -> fetch filter timeoutMs c w = (Throw NotConnected, c, w).
Proof. intros Hnot. unfold fetch, bind, this, throw. now rewrite Hnot. Qed.

Lemma calls_cons `{H : Host} (k : Call) (rest : list Call) (c : NostrClient)
    (w : World) :
  calls (k :: rest) c w = calls rest (call k c w).1.2 (call k c w).2.
Proof.
  cbn [calls]. unfold bind.
  destruct k; cbn [call]; rewrite ignore_eq; reflexivity.
Qed.

(** What [disconnect] preserves is preserved by every sequence of calls in
    which [connect] does not occur. *)
Lemma calls_without_connect `{H : Host} (P : NostrClient -> Prop) :
  (forall c, P c -> P (disconnected c)) ->
  forall (ks : list Call) (c : NostrClient) (w : World),
    existsb is_connect ks = false -> P c -> P (calls ks c w).1.2.
Proof.
  intros Hdisc. induction ks as [|k rest IH]; intros c w Hks Hc; [exact Hc|].
  cbn [existsb] in Hks. apply orb_false_iff in Hks as [Hk Hrest].
  rewrite calls_cons.
  destruct (call_other k c w Hk) as (c' & w' & -> & [->| ->]);
    cbn [fst snd]; apply IH; auto.
Qed.

Lemma disconnected_never_connected (c : NostrClient) :
  never_connected c -> never_connected (disconnected c).
Proof.
  intros (Hpool & Hkey & Hpk & Hconn). unfold disconnected. rewrite Hpool.
  repeat split; assumption.
Qed.

Lemma disconnected_pool (c : NostrClient) :
  pool (disconnected c) = None /\ _isConnected (disconnected c) = false.
Proof.
  unfold disconnected. destruct (pool c) eqn:Hpool; split; cbn; auto.
Qed.

(** C6: on a client on which [connect()] has never been called, whatever
    else was called before, [publish] rejects with the not-connected error
    and leaves the world as it was: nothing is signed and nothing is sent. *)
Theorem publish_before_connect `{H : Host} (DEFAULT_CONFIG_relays : list string)
    (options : NostrClientOptions) (ks : list Call) (w : World)
    (t : EventTemplate)
    (Hnever : existsb is_connect ks = false) :
  let s := calls ks (constructor DEFAULT_CONFIG_relays options) w in
  publish t s.1.2 s.2 = (Throw NotConnected, s.1.2, s.2) /\
  NotConnected = mkError "NostrClient not connected. Call connect() first." /\
  filter is_sign (w_trace (publish t s.1.2 s.2).2) = filter is_sign (w_trace s.2) /\
  filter is_send (w_trace (publish t s.1.2 s.2).2) = filter is_send (w_trace s.2).
Proof.
  intros s.
  assert (Hs : never_connected s.1.2).
  { apply (calls_without_connect never_connected);
      [exact disconnected_never_connected|exact Hnever|].
    repeat split. }
  destruct Hs as (Hpool & _).
  rewrite (publish_not_connected t _ _ (or_introl Hpool)).
  repeat split.
Qed.

Lemma publish_before_connect_witness :
  let h := Sample.host false false (fun _ _ => true) false in
  let ks := [CallSubscribe [Sample.filter]; CallDisconnect;
             CallFetch Sample.filter None] in
  existsb is_connect ks = false /\
  let s := calls (H := h) ks (constructor [] Sample.options) (Sample.world0 h ∅) in
  publish Sample.template s.1.2 s.2 = (Throw NotConnected, s.1.2, s.2) /\
  NotConnected = mkError "NostrClient not connected. Call connect() first." /\
  filter is_sign (w_trace (publish Sample.template s.1.2 s.2).2)
    = filter is_sign (w_trace s.2) /\
  filter is_send (w_trace (publish Sample.template s.1.2 s.2).2)
    = filter is_send (w_trace s.2).
Proof.
  intros h ks. split; [reflexivity|].
  apply (publish_before_connect (H := h) [] Sample.options ks (Sample.world0 h ∅)
           Sample.template).
  reflexivity.
Defined.

(** C9, as amended: after a [disconnect()] that returned (it throws, and
    clears nothing, when [pool.close] throws), and after any further calls
    other than [connect()], [publish] and [fetch] reject with the
    not-connected error and do nothing else, although the secret key is
    still there.  A later [connect()] that returns sets the pool and a key
    again: [publish] then no longer rejects with that error when
    [pool.publish] takes the relay list, and [fetch] returns a pending
    promise whenever the pool opens the subscription. *)
Theorem reject_after_disconnect `{H : Host} (c : NostrClient) (w : World)
    (ks : list Call) (t : EventTemplate) (f : Filter)
    (timeoutMs : option JsNumber)
    (Hreturns : (disconnect c w).1.1 = Ok tt)
    (Hnone : existsb is_connect ks = false) :
  let d := disconnect c w in
  let s := calls ks d.1.2 d.2 in
  pool d.1.2 = None /\
  isConnected d.1.2 = false /\
  secretKey s.1.2 = secretKey c /\
  publish t s.1.2 s.2 = (Throw NotConnected, s.1.2, s.2) /\
  fetch f timeoutMs s.1.2 s.2 = (Throw NotConnected, s.1.2, s.2) /\
  let r := connect s.1.2 s.2 in
  (r.1.1 = Ok tt ->
   (exists p sk, pool r.1.2 = Some p /\ secretKey r.1.2 = Some sk) /\
   ((forall ev, poolPublish_throws (relays r.1.2) ev = None) ->
    (publish t r.1.2 r.2).1.1 <> Throw NotConnected) /\
   (subscribeManyEose_throws (w_subs r.2) (relays r.1.2) f = None ->
    exists st, (fetch f timeoutMs r.1.2 r.2).1.1 = Ok st)).
Proof.
  intros d s.
  assert (Hd : d.1.2 = disconnected c).
  { subst d. revert Hreturns. rewrite disconnect_eq.
    destruct (pool c); [|reflexivity].
    destruct (poolClose_throws (relays c)); [discriminate|reflexivity]. }
  destruct (disconnected_pool c) as [Hpool0 Hflag0].
  split; [now rewrite Hd|]. split; [unfold isConnected; now rewrite Hd|].
  assert (Hs : (pool s.1.2 = None /\ _isConnected s.1.2 = false) /\
               secretKey s.1.2 = secretKey c).
  { subst s. rewrite Hd. split.
    - apply (calls_without_connect
               (fun c0 => pool c0 = None /\ _isConnected c0 = false));
        [intros c0 _; apply disconnected_pool|exact Hnone|apply disconnected_pool].
    - apply (calls_without_connect (fun c0 => secretKey c0 = secretKey c));
        [|exact Hnone|].
      + intros c0 Hc0. unfold disconnected. destruct (pool c0); exact Hc0.
      + unfold disconnected. destruct (pool c) eqn:Hp; reflexivity. }
  destruct Hs as ((Hpool & Hflag) & Hkey).
  split; [exact Hkey|].
  split; [apply publish_not_connected; now left|].
  split; [now apply fetch_not_connected|].
  intros r. subst r.
  destruct (connect_cases s.1.2 s.2 Hflag) as (sk & w1 & -> & _).
  unfold connect_outcome. destruct (getPublicKey sk) as [pk|e]; [|discriminate].
  cbn [fst snd]. intros _. split; [eauto|]. split.
  - intros Hurls.
    pose proof (retry_loop_publish
                  (finalizeEvent
                     {| u_kind := t_kind t; u_tags := t_tags t;
                        u_content := t_content t;
                        u_created_at :=
                          w_now (emit (ENewPool {| pool_id := w_pools w1 |})
                                   (next_pool w1)) / 1000 |}
                     sk)
                  (connected_with sk pk {| pool_id := w_pools w1 |} s.1.2)
                  {| pool_id := w_pools w1 |}
                  (maxDelay (publishRetry s.1.2)) eq_refl (Hurls _)
                  (Nat.pred (maxAttempts (publishRetry s.1.2)))
                  (initialDelay (publishRetry s.1.2))
                  (emit (EFinalizeEvent
                           {| u_kind := t_kind t; u_tags := t_tags t;
                              u_content := t_content t;
                              u_created_at :=
                                w_now (emit (ENewPool {| pool_id := w_pools w1 |})
                                         (next_pool w1)) / 1000 |})
                     (emit (ENewPool {| pool_id := w_pools w1 |}) (next_pool w1))))
      as (n & r & w'' & Heq & _ & _ & _ & Hlast).
    unfold publish, withRetry, bind, this, world, effect.
    cbn [pool secretKey connected_with publishRetry].
    rewrite Heq. cbn [fst].
    destruct Hlast as [[-> _]|[[errs ->] _]]; discriminate.
  - intros Hopens.
    erewrite fetch_pending; [eexists; reflexivity|reflexivity|exact Hopens].
Qed.

Lemma reject_after_disconnect_witness :
  let h := Sample.host false false (fun _ _ => true) false in
  let s0 := connect (H := h) (constructor [] Sample.options) (Sample.world0 h ∅) in
  let ks := [CallPublish Sample.template; CallDisconnect;
             CallSubscribe [Sample.filter]] in
  (disconnect s0.1.2 s0.2).1.1 = Ok tt /\
  existsb is_connect ks = false /\
  let d := disconnect s0.1.2 s0.2 in
  let s := calls ks d.1.2 d.2 in
  pool d.1.2 = None /\
  isConnected d.1.2 = false /\
  secretKey s.1.2 = secretKey s0.1.2 /\
  publish Sample.template s.1.2 s.2 = (Throw NotConnected, s.1.2, s.2) /\
  fetch Sample.filter None s.1.2 s.2 = (Throw NotConnected, s.1.2, s.2) /\
  let r := connect s.1.2 s.2 in
  (r.1.1 = Ok tt ->
   (exists p sk, pool r.1.2 = Some p /\ secretKey r.1.2 = Some sk) /\
   ((forall ev, poolPublish_throws (relays r.1.2) ev = None) ->
    (publish Sample.template r.1.2 r.2).1.1 <> Throw NotConnected) /\
   (subscribeManyEose_throws (w_subs r.2) (relays r.1.2) Sample.filter = None ->
    exists st, (fetch Sample.filter None r.1.2 r.2).1.1 = Ok st)).
Proof.
  intros h s0 ks. split; [reflexivity|]. split; [reflexivity|].
  apply (reject_after_disconnect (H := h) s0.1.2 s0.2 ks Sample.template
           Sample.filter None); reflexivity.
Defined.

(** C9, as stated, fails: [disconnect()] calls [pool.close] before it clears
    anything, so when that call throws (a relay text that is not a URL) the
    client keeps its pool and its flag, and [publish] and [fetch] after that
    [disconnect()] pass their guards. *)
Lemma failed_disconnect_stays_connected :
  let h := Sample.host false false (fun _ _ => true) false in
  let c0 := constructor []
              {| o_relays := Some ["wss://relay.damus.io"; "not a url"]%string;
                 o_storageKeyPrefix := None; o_publishRetry := None |} in
  let s0 := connect (H := h) c0 (Sample.world0 h ∅) in
  let d := disconnect s0.1.2 s0.2 in
  s0.1.1 = Ok tt /\
  d.1.1 = Throw (mkError "Invalid URL: not a url") /\
  pool d.1.2 = Some {| pool_id := 0 |} /\
  isConnected d.1.2 = true /\
  (publish Sample.template d.1.2 d.2).1.1 = Throw (mkError "Invalid URL: not a url") /\
  (publish Sample.template d.1.2 d.2).1.1 <> Throw NotConnected /\
  (fetch Sample.filter None d.1.2 d.2).1.1 = Throw (mkError "Invalid URL: not a url") /\
  (fetch Sample.filter None d.1.2 d.2).1.1 <> Throw NotConnected /\
  length (List.filter is_send (w_trace (publish Sample.template d.1.2 d.2).2)) = 3%nat.
Proof. repeat split; discriminate. Qed.

(** ** The public key *)

(** What [connect] and [disconnect] preserve, on all their paths, is
    preserved by every sequence of calls. *)
Lemma calls_preserve `{H : Host} (P : NostrClient -> Prop) :
  (forall c, P c -> P (disconnected c)) ->
  (forall c sk pk p, getPublicKey sk = Ok pk -> P c ->
                     P (connected_with sk pk p c)) ->
  (forall c sk, _isConnected c = false -> P c -> P (set_secretKey sk c)) ->
  forall (ks : list Call) (c : NostrClient) (w : World),
    P c -> P (calls ks c w).1.2.
Proof.
  intros Hdisc Hconn Habort.
  induction ks as [|k rest IH]; intros c w Hc; [exact Hc|].
  rewrite calls_cons. destruct (is_connect k) eqn:Hk.
  - destruct k; try discriminate.
    destruct (call_connect c w)
      as (c' & w' & -> & [[_ ->]|[(sk & pk & p & Hpk & ->)|(sk & Hflag & ->)]]);
      cbn [fst snd]; apply IH; eauto.
  - destruct (call_other k c w Hk) as (c' & w' & -> & [->| ->]);
      cbn [fst snd]; apply IH; auto.
Qed.

Lemma calls_identity `{H : Host} (DEFAULT_CONFIG_relays : list string)
    (options : NostrClientOptions) (ks : list Call) (w : World) :
  identity_consistent (calls ks (constructor DEFAULT_CONFIG_relays options) w).1.2.
Proof.
  apply (calls_preserve identity_consistent).
  - intros c _ Hflag. destruct (disconnected_pool c). congruence.
  - intros c sk pk p Hpk _ _. split; [discriminate|]. exists sk. auto.
  - intros c sk Hflag _ Hflag'. cbn in Hflag'. congruence.
  - intros Hflag. discriminate.
Qed.



Example publicKey_on_sample_host :
  let h := Sample.host false false (fun _ _ => true) false in
  let c0 := constructor [] Sample.options in
  let w := Sample.world0 h ∅ in
  let invalid : gmap string string := {[ "nostr-battle-nsec" := "nsec10000" ]} in
  publicKey (calls (H := h) [CallDisconnect; CallFetch Sample.filter None] c0 w).1.2
    = ""%string /\
  publicKey (calls (H := h) [CallConnect] c0 w).1.2 = "pub:key0"%string /\
  publicKey (calls (H := h) [CallConnect; CallDisconnect] c0 w).1.2
    = "pub:key0"%string /\
  publicKey (calls (H := h) [CallConnect] c0 (Sample.world0 h invalid)).1.2
    = ""%string /\
  secretKey (calls (H := h) [CallConnect] c0 (Sample.world0 h invalid)).1.2
    = Some (list_byte_of_string "0000").
Proof. repeat split; vm_compute; reflexivity. Qed.

(** ** subscribe *)

(** C8: [subscribe] never throws.  On a client without a pool, or with an
    empty list of filters, it only warns and returns the function that does
    nothing, which can be called any number of times without effect.  On a
    client with a pool and a non-empty list, it opens one subscription, on
    the first filter alone: the other filters play no part. *)
Theorem subscribe_guards `{H : Host} (c : NostrClient) (w : World)
    (filters : list Filter) :
  (exists u, (subscribe filters c w).1.1 = Ok u) /\
  (pool c = None ->
   subscribe filters c w =
   (Ok Unsubscribe_noop, c,
    emit (EConsoleWarn "NostrClient not connected. Call connect() first.") w)) /\
  (pool c <> None -> filters = [] ->
   subscribe filters c w =
   (Ok Unsubscribe_noop, c,
    emit (EConsoleWarn "[NostrClient] No filters provided") w)) /\
  (forall (n : nat) (c1 : NostrClient) (w1 : World),
     calls (replicate n (CallUnsubscribe Unsubscribe_noop)) c1 w1 = (Ok tt, c1, w1) /\
     call_unsubscribe Unsubscribe_noop c1 w1 = (Ok tt, c1, w1)) /\
  (forall p filter0 rest,
     pool c = Some p -> filters = filter0 :: rest ->
     subscribe filters c w = subscribe [filter0] c w /\
     exists tail,
       w_trace (subscribe filters c w).2 =
       w_trace w ++ [EConsoleLog "[NostrClient] Subscribing with filter:";
                     ESubscribeMany p (relays c) filter0] ++ tail /\
       match subscribeMany_throws (w_subs w) (relays c) filter0 with
       | None =>
           tail = [] /\
           (subscribe filters c w).1.1 = Ok (Unsubscribe_close {| sub_id := w_subs w |})
       | Some _ =>
           tail = [EConsoleError "Failed to subscribe:"] /\
           (subscribe filters c w).1.1 = Ok Unsubscribe_noop
       end).
Proof.
  split; [|split; [|split; [|split]]].
  - unfold subscribe, pool_subscribeMany, try_catch, bind, this, ret, effect.
    destruct (pool c); [|eauto]. destruct filters as [|f0 rest]; [eauto|].
    destruct (subscribeMany_throws _ _ _); eauto.
  - intros Hpool. unfold subscribe, bind, this, ret, effect. now rewrite Hpool.
  - intros Hpool ->. unfold subscribe, bind, this, ret, effect.
    destruct (pool c); [reflexivity|congruence].
  - intros n c1 w1. split; [|reflexivity].
    induction n as [|n IH]; [reflexivity|].
    cbn [replicate]. rewrite calls_cons. exact IH.
  - intros p filter0 rest Hpool ->.
    unfold subscribe, pool_subscribeMany, try_catch, bind, this, ret, effect.
    rewrite Hpool. split; [reflexivity|].
    change (w_subs (emit (EConsoleLog "[NostrClient] Subscribing with filter:") w))
      with (w_subs w).
    destruct (subscribeMany_throws (w_subs w) (relays c) filter0).
    + exists [EConsoleError "Failed to subscribe:"].
      cbn [w_trace emit next_sub fst snd]. rewrite <- !app_assoc. auto.
    + exists []. cbn [w_trace emit next_sub fst snd]. rewrite <- !app_assoc. auto.
Qed.

Lemma subscribe_guards_witness :
  let h := Sample.host false false (fun _ _ => true) false in
  let c := constructor [] Sample.options in
  let w := Sample.world0 h ∅ in
  let filters := [Sample.filter] in
  (exists u, (subscribe filters c w).1.1 = Ok u) /\
  (pool c = None ->
   subscribe filters c w =
   (Ok Unsubscribe_noop, c,
    emit (EConsoleWarn "NostrClient not connected. Call connect() first.") w)) /\
  (pool c <> None -> filters = [] ->
   subscribe filters c w =
   (Ok Unsubscribe_noop, c,
    emit (EConsoleWarn "[NostrClient] No filters provided") w)) /\
  (forall (n : nat) (c1 : NostrClient) (w1 : World),
     calls (replicate n (CallUnsubscribe Unsubscribe_noop)) c1 w1 = (Ok tt, c1, w1) /\
     call_unsubscribe Unsubscribe_noop c1 w1 = (Ok tt, c1, w1)) /\
  (forall p filter0 rest,
     pool c = Some p -> filters = filter0 :: rest ->
     subscribe filters c w = subscribe [filter0] c w /\
     exists tail,
       w_trace (subscribe filters c w).2 =
       w_trace w ++ [EConsoleLog "[NostrClient] Subscribing with filter:";
                     ESubscribeMany p (relays c) filter0] ++ tail /\
       match subscribeMany_throws (w_subs w) (relays c) filter0 with
       | None =>
           tail = [] /\
           (subscribe filters c w).1.1 = Ok (Unsubscribe_close {| sub_id := w_subs w |})
       | Some _ =>
           tail = [EConsoleError "Failed to subscribe:"] /\
           (subscribe filters c w).1.1 = Ok Unsubscribe_noop
       end).
Proof.
  intros h c w filters.
  exact (subscribe_guards (H := h) c w filters).
Defined.

Example subscribe_on_sample_host :
  let h := Sample.host false false (fun _ _ => true) false in
  let broken := Sample.host false false (fun _ _ => true) true in
  let other := {| f_ids := None; f_kinds := Some [1]; f_authors := None;
                  f_tagged := []; f_since := None; f_until := None;
                  f_limit := None |} in
  let c0 := constructor [] Sample.options in
  let c := set_pool (Some {| pool_id := 0 |}) c0 in
  (subscribe (H := h) [Sample.filter] c0 (Sample.world0 h ∅)).1.1
    = Ok Unsubscribe_noop /\
  (subscribe (H := h) [] c (Sample.world0 h ∅)).1.1 = Ok Unsubscribe_noop /\
  (subscribe (H := h) [Sample.filter; other] c (Sample.world0 h ∅)).1.1
    = Ok (Unsubscribe_close {| sub_id := 0 |}) /\
  w_trace (subscribe (H := h) [Sample.filter; other] c (Sample.world0 h ∅)).2
    = [EConsoleLog "[NostrClient] Subscribing with filter:";
       ESubscribeMany {| pool_id := 0 |} Sample.three_relays Sample.filter] /\
  (subscribe (H := broken) [Sample.filter] c (Sample.world0 broken ∅)).1.1
    = Ok Unsubscribe_noop.
Proof. repeat split; vm_compute; reflexivity. Qed.

(** * Further properties *)

(** ** disconnect *)

Lemma disconnected_twice (c : NostrClient) :
  disconnected (disconnected c) = disconnected c.
Proof. destruct c as [[p|] sk pk flag urls prefix retry]; reflexivity. Qed.

(** X1: [disconnect()] never touches the keys.  Without a pool it only
    clears the flag.  With a pool it calls [pool.close] for the configured
    relays first: if that call throws, [disconnect()] throws the same error
    and the client is left exactly as it was, pool and flag included, so
    that a second [disconnect()] throws again; otherwise the pool and the
    flag are cleared, and a second [disconnect()] changes nothing and closes
    nothing. *)
Theorem disconnect_twice `{H : Host} (c : NostrClient) (w : World) :
  let s := disconnect c w in
  secretKey s.1.2 = secretKey c /\
  publicKey s.1.2 = publicKey c /\
  (pool c = None -> s = (Ok tt, disconnected c, w)) /\
  (forall p, pool c = Some p ->
     s.2 = emit (EPoolClose p (relays c)) w /\
     (s.1.1 = Ok tt <-> poolClose_throws (relays c) = None)) /\
  (s.1.1 = Ok tt ->
   pool s.1.2 = None /\ isConnected s.1.2 = false /\
   disconnect s.1.2 s.2 = (Ok tt, s.1.2, s.2)) /\
  (forall e, s.1.1 = Throw e ->
     s.1.2 = c /\ pool c <> None /\
     poolClose_throws (relays c) = Some e /\
     (disconnect s.1.2 s.2).1.1 = Throw e /\
     (disconnect s.1.2 s.2).1.2 = c).
Proof.
  intros s. subst s. rewrite (disconnect_eq c w).
  destruct (disconnected_pool c) as [Hpool Hflag].
  assert (Hkeys : secretKey (disconnected c) = secretKey c /\
                  publicKey (disconnected c) = publicKey c)
    by (unfold publicKey, disconnected; destruct (pool c) eqn:Hp; auto).
  assert (Hagain : forall w1, disconnect (disconnected c) w1
                              = (Ok tt, disconnected c, w1))
    by (intros w1; now rewrite disconnect_eq, disconnected_twice, Hpool).
  destruct (pool c) as [p|] eqn:Hp.
  - destruct (poolClose_throws (relays c)) as [e|] eqn:Hclose; cbn [fst snd].
    + split; [reflexivity|]. split; [reflexivity|]. split; [discriminate|].
      split; [intros p0 [= <-]; split; [reflexivity|split; discriminate]|].
      split; [discriminate|].
      intros e0 [= <-]. rewrite disconnect_eq, Hp, Hclose. cbn.
      repeat split. discriminate.
    + split; [apply Hkeys|]. split; [apply Hkeys|]. split; [discriminate|].
      split; [intros p0 [= <-]; split; [reflexivity|split; reflexivity]|].
      split; [intros _; unfold isConnected; auto|]. discriminate.
  - cbn [fst snd].
    split; [apply Hkeys|]. split; [apply Hkeys|]. split; [reflexivity|].
    split; [discriminate|].
    split; [intros _; unfold isConnected; auto|]. discriminate.
Qed.

(** X2: on an unconnected client, when [connect()] returns and [pool.close]
    takes the relay list, [disconnect()] closes the very pool that
    [connect()] created, for the configured relays, and leaves the client
    without pool and flag but with the key and the public key that
    [connect()] set. *)
Theorem connect_then_disconnect `{H : Host} (c : NostrClient) (w : World)
    (Hfresh : _isConnected c = false)
    (Hconnects : (connect c w).1.1 = Ok tt)
    (Hcloses : poolClose_throws (relays c) = None) :
  let s1 := connect c w in
  let s2 := disconnect s1.1.2 s1.2 in
  let p := {| pool_id := w_pools w |} in
  pool s1.1.2 = Some p /\
  last (w_trace s1.2) = Some (ENewPool p) /\
  s2 = (Ok tt, disconnected s1.1.2, emit (EPoolClose p (relays c)) s1.2) /\
  pool s2.1.2 = None /\
  isConnected s2.1.2 = false /\
  secretKey s2.1.2 = secretKey s1.1.2 /\
  secretKey s2.1.2 <> None /\
  publicKey s2.1.2 = publicKey s1.1.2.
Proof.
  intros s1 s2 p. subst s2 s1 p. revert Hconnects.
  destruct (connect_cases c w Hfresh) as (sk & w1 & -> & Hpools).
  unfold connect_outcome. destruct (getPublicKey sk) as [pk|e]; [|discriminate].
  intros _. cbn [fst snd]. rewrite Hpools.
  rewrite disconnect_eq. cbn [pool connected_with relays]. rewrite Hcloses.
  cbn. repeat split; try apply last_snoc. discriminate.
Qed.

Lemma connect_then_disconnect_witness :
  let h := Sample.host false false (fun _ _ => true) false in
  let c := constructor [] Sample.options in
  let w := Sample.world0 h ∅ in
  _isConnected c = false /\
  (connect c w).1.1 = Ok tt /\
  poolClose_throws (relays c) = None /\
  let s1 := connect c w in
  let s2 := disconnect s1.1.2 s1.2 in
  let p := {| pool_id := w_pools w |} in
  pool s1.1.2 = Some p /\
  last (w_trace s1.2) = Some (ENewPool p) /\
  s2 = (Ok tt, disconnected s1.1.2, emit (EPoolClose p (relays c)) s1.2) /\
  pool s2.1.2 = None /\
  isConnected s2.1.2 = false /\
  secretKey s2.1.2 = secretKey s1.1.2 /\
  secretKey s2.1.2 <> None /\
  publicKey s2.1.2 = publicKey s1.1.2.
Proof.
  intros h c w. split; [reflexivity|]. split; [reflexivity|].
  split; [reflexivity|].
  apply (connect_then_disconnect (H := h) c w); reflexivity.
Defined.

(** ** What holds along every sequence of calls *)

(** X3: whatever is called on a client after its construction, and in
    whatever order, the connected flag is set exactly when the client holds
    a pool, and then it also holds a secret key: a client that says it is
    connected passes the guards of [publish], [subscribe] and [fetch]. *)
Theorem flag_agrees_with_pool `{H : Host} (DEFAULT_CONFIG_relays : list string)
    (options : NostrClientOptions) (ks : list Call) (w : World) :
  let c := (calls ks (constructor DEFAULT_CONFIG_relays options) w).1.2 in
  (isConnected c = true <-> exists p, pool c = Some p) /\
  (isConnected c = true -> exists sk, secretKey c = Some sk) /\
  (isConnected c = false -> forall t f timeoutMs w1,
     publish t c w1 = (Throw NotConnected, c, w1) /\
     fetch f timeoutMs c w1 = (Throw NotConnected, c, w1)).
Proof.
  intros c.
  assert (Hinv : (_isConnected c = true /\ pool c <> None /\ secretKey c <> None) \/
                 (_isConnected c = false /\ pool c = None)).
  { apply (calls_preserve
             (fun c0 => (_isConnected c0 = true /\ pool c0 <> None /\
                         secretKey c0 <> None) \/
                        (_isConnected c0 = false /\ pool c0 = None))).
    - intros c0 _. right. destruct (disconnected_pool c0). auto.
    - intros c0 sk pk p _ _. left. repeat split; discriminate.
    - intros c0 sk Hflag [(Hf & _)|(_ & Hp)]; [congruence|]. right. auto.
    - right. split; reflexivity. }
  unfold isConnected.
  destruct Hinv as [(Hflag & Hpool & Hkey)|(Hflag & Hpool)].
  - split; [|split].
    + split; [intros _|intros _; exact Hflag].
      destruct (pool c) as [p|]; [eauto|congruence].
    + intros _. destruct (secretKey c) as [sk|]; [eauto|congruence].
    + congruence.
  - split; [|split].
    + split; [congruence|]. intros [p Hp]. congruence.
    + congruence.
    + intros _ t f timeoutMs w1. split.
      * apply publish_not_connected. now left.
      * now apply fetch_not_connected.
Qed.

(** X4: no method changes the configuration given to the constructor: after
    any sequence of calls the relay list, the storage key prefix and the
    retry options are those the client was built with. *)
Theorem configuration_is_fixed `{H : Host} (DEFAULT_CONFIG_relays : list string)
    (options : NostrClientOptions) (ks : list Call) (w : World) :
  let c0 := constructor DEFAULT_CONFIG_relays options in
  let c := (calls ks c0 w).1.2 in
  relays c = default DEFAULT_CONFIG_relays (o_relays options) /\
  storageKeyPrefix c = default "nostr-battle"%string (o_storageKeyPrefix options) /\
  publishRetry c =
    default {| maxAttempts := 3; initialDelay := 1000; maxDelay := 5000 |}
            (o_publishRetry options).
Proof.
  intros c0 c.
  apply (calls_preserve
           (fun c1 => relays c1 = relays c0 /\
                      storageKeyPrefix c1 = storageKeyPrefix c0 /\
                      publishRetry c1 = publishRetry c0)).
  - intros c1 Hc1. unfold disconnected. destruct (pool c1); exact Hc1.
  - intros c1 sk pk p _ Hc1. exact Hc1.
  - intros c1 sk _ Hc1. exact Hc1.
  - repeat split.
Qed.

(** ** Relay status *)


(** ** unsubscribe *)

Lemma emit_all_cons `{H : Host} (e : Effect) (es : list Effect) (w : World) :
  emit_all (e :: es) w = emit_all es (emit e w).
Proof. reflexivity. Qed.

(** X6: the function returned by a successful [subscribe] closes the
    subscription that this [subscribe] opened; every call of it does so
    again, on whatever state the client is in by then (also after
    [disconnect()]), and does nothing else. *)
Theorem unsubscribe_closes_subscription `{H : Host} (c : NostrClient) (w : World)
    (p : SimplePool) (filter0 : Filter) (rest : list Filter)
    (Hpool : pool c = Some p)
    (Hopens : subscribeMany_throws (w_subs w) (relays c) filter0 = None) :
  let opened := {| sub_id := w_subs w |} in
  (subscribe (filter0 :: rest) c w).1.1 = Ok (Unsubscribe_close opened) /\
  w_subs (subscribe (filter0 :: rest) c w).2 = S (w_subs w) /\
  forall (n : nat) (c1 : NostrClient) (w1 : World),
    calls (replicate n (CallUnsubscribe (Unsubscribe_close opened))) c1 w1 =
    (Ok tt, c1, emit_all (replicate n (ESubClose opened)) w1).
Proof.
  intros opened. split; [|split].
  - unfold subscribe, pool_subscribeMany, try_catch, bind, this, ret, effect.
    rewrite Hpool.
    change (w_subs (emit (EConsoleLog "[NostrClient] Subscribing with filter:") w))
      with (w_subs w).
    rewrite Hopens. reflexivity.
  - unfold subscribe, pool_subscribeMany, try_catch, bind, this, ret, effect.
    rewrite Hpool.
    change (w_subs (emit (EConsoleLog "[NostrClient] Subscribing with filter:") w))
      with (w_subs w).
    rewrite Hopens. reflexivity.
  - induction n as [|n IH]; intros c1 w1; [reflexivity|].
    cbn [replicate]. rewrite calls_cons, emit_all_cons.
    cbn [call]. rewrite ignore_eq. cbn [call_unsubscribe]. unfold effect.
    cbn [fst snd]. apply IH.
Qed.

Lemma unsubscribe_closes_subscription_witness :
  let h := Sample.host false false (fun _ _ => true) false in
  let p := {| pool_id := 0 |} in
  let c := set_pool (Some p) (constructor [] Sample.options) in
  let w := Sample.world0 h ∅ in
  pool c = Some p /\
  subscribeMany_throws (w_subs w) (relays c) Sample.filter = None /\
  let opened := {| sub_id := w_subs w |} in
  (subscribe [Sample.filter] c w).1.1 = Ok (Unsubscribe_close opened) /\
  w_subs (subscribe [Sample.filter] c w).2 = S (w_subs w) /\
  forall (n : nat) (c1 : NostrClient) (w1 : World),
    calls (replicate n (CallUnsubscribe (Unsubscribe_close opened))) c1 w1 =
    (Ok tt, c1, emit_all (replicate n (ESubClose opened)) w1).
Proof.
  intros h p c w. split; [reflexivity|]. split; [reflexivity|].
  apply (unsubscribe_closes_subscription (H := h) c w p Sample.filter []);
    reflexivity.
Defined.

(** ** Storage and identity *)

Lemma retry_loop_persistent `{H : Host} {A} (fn : M A) (retries : nat)
    (delay cap : Z) (c : NostrClient) (w : World) :
  (forall c0 w0, persistent (fn c0 w0).2 = persistent w0) ->
  persistent (retry_loop fn retries delay cap c w).2 = persistent w.
Proof.
  intros Hfn. revert delay c w. induction retries as [|n IH]; intros delay c w.
  - cbn [retry_loop]. specialize (Hfn c w).
    destruct (fn c w) as [[[a|e] c'] w']; exact Hfn.
  - cbn [retry_loop]. pose proof (Hfn c w) as Hw.
    destruct (fn c w) as [[[a|e] c'] w']; [exact Hw|].
    rewrite IH. exact Hw.
Qed.

Lemma publish_persistent `{H : Host} (t : EventTemplate) (c : NostrClient)
    (w : World) :
  persistent (publish t c w).2 = persistent w.
Proof.
  unfold publish, withRetry, bind, this, throw, world, effect.
  destruct (pool c); [|reflexivity]. destruct (secretKey c); [|reflexivity].
  rewrite retry_loop_persistent; [reflexivity|].
  intros c0 w0.
  unfold publish_attempt, pool_publish, Promise_any, bind, this, throw, update.
  destruct (pool c0); [|reflexivity].
  destruct (poolPublish_throws _ _); [reflexivity|].
  destruct (first_accept _); reflexivity.
Qed.

Lemma call_other_persistent `{H : Host} (k : Call) (c : NostrClient) (w : World) :
  is_connect k = false -> persistent (call k c w).2 = persistent w.
Proof.
  intros Hk. destruct k as [| |t|fs|u|f tm]; try discriminate; cbn [call];
    rewrite ignore_eq; cbn [snd].
  - rewrite disconnect_eq. destruct (pool c); [|reflexivity].
    destruct (poolClose_throws (relays c)); reflexivity.
  - apply publish_persistent.
  - unfold subscribe, pool_subscribeMany, try_catch, bind, this, ret, effect.
    destruct (pool c); [|reflexivity]. destruct fs; [reflexivity|].
    destruct (subscribeMany_throws _ _ _); reflexivity.
  - destruct u; reflexivity.
  - unfold fetch, pool_subscribeManyEose, bind, this, ret, throw, effect.
    destruct (pool c); [|reflexivity].
    destruct (subscribeManyEose_throws _ _ _); reflexivity.
Qed.

(** X7: only [connect()] touches the storage, the key generator and the
    pool constructor: after any sequence of calls of [disconnect],
    [publish], [subscribe], unsubscribe functions and [fetch], the storage
    contents are what they were, no key has been generated and no pool has
    been created. *)
Theorem only_connect_touches_storage `{H : Host} (ks : list Call)
    (c : NostrClient) (w : World)
    (Hnone : existsb is_connect ks = false) :
  w_store (calls ks c w).2 = w_store w /\
  w_keys (calls ks c w).2 = w_keys w /\
  w_pools (calls ks c w).2 = w_pools w.
Proof.
  assert (Hp : persistent (calls ks c w).2 = persistent w).
  { revert c w. induction ks as [|k rest IH]; intros c w; [reflexivity|].
    cbn [existsb] in Hnone. apply orb_false_iff in Hnone as [Hk Hrest].
    rewrite calls_cons, (IH Hrest). now apply call_other_persistent. }
  unfold persistent in Hp. injection Hp as Hs Hk Hpools. auto.
Qed.

Lemma only_connect_touches_storage_witness :
  let h := Sample.host false false (fun _ _ => true) false in
  let s := connect (H := h) (constructor [] Sample.options) (Sample.world0 h ∅) in
  let ks := [CallPublish Sample.template; CallSubscribe [Sample.filter];
             CallFetch Sample.filter None; CallDisconnect;
             CallPublish Sample.template] in
  existsb is_connect ks = false /\
  w_store (calls ks s.1.2 s.2).2 = w_store s.2 /\
  w_keys (calls ks s.1.2 s.2).2 = w_keys s.2 /\
  w_pools (calls ks s.1.2 s.2).2 = w_pools s.2.
Proof.
  intros h s ks. split; [reflexivity|].
  apply (only_connect_touches_storage (H := h) ks s.1.2 s.2). reflexivity.
Defined.

Lemma connect_reads_key `{H : Host} (view : Store -> string -> option string)
    (c : NostrClient) (w : World) (stored : string) (k : SecretKey) :
  storage_reads view ->
  _isConnected c = false ->
  view (w_store w) (String.append (storageKeyPrefix c) "-nsec") = Some stored ->
  startsWith stored "nsec1" = true ->
  decode stored = Ok (DecodedNsec k) ->
  connect c w =
  connect_outcome k c
    (emit (EGetItem (String.append (storageKeyPrefix c) "-nsec"))
       (set_store (w_store w) w)).
Proof.
  intros Hreads Hfresh Hview Hprefix Hdecode.
  apply (connect_reuse c w stored k (w_store w) Hfresh); [|assumption..].
  rewrite Hreads, Hview. reflexivity.
Qed.

(** X8: with a storage backend that can be read and written, and a key
    encoding that [decode] reads back, the identity persists.  When
    [connect()] returns, the text stored under the client's key decodes to
    the secret key in use, and any later [connect()] against the same
    storage contents by a client with the same prefix (the same client after
    [disconnect()], or a new one) returns too, takes that key again without
    generating one, and shows the same public key. *)
Theorem identity_persists `{H : Host} (view : Store -> string -> option string)
    (c c' : NostrClient) (w w2 : World)
    (Hreads : storage_reads view) (Hwrites : storage_writes view)
    (Hcodec : startsWith (nsecEncode (generateSecretKey (w_keys w))) "nsec1" = true /\
              decode (nsecEncode (generateSecretKey (w_keys w))) =
              Ok (DecodedNsec (generateSecretKey (w_keys w))))
    (Hc : _isConnected c = false) (Hc' : _isConnected c' = false)
    (Hconnects : (connect c w).1.1 = Ok tt)
    (Hprefix : storageKeyPrefix c' = storageKeyPrefix c)
    (Hstore : w_store w2 = w_store (connect c w).2) :
  let nsecKey := String.append (storageKeyPrefix c) "-nsec" in
  exists sk stored,
    secretKey (connect c w).1.2 = Some sk /\
    getPublicKey sk = Ok (publicKey (connect c w).1.2) /\
    view (w_store (connect c w).2) nsecKey = Some stored /\
    startsWith stored "nsec1" = true /\
    decode stored = Ok (DecodedNsec sk) /\
    (connect c' w2).1.1 = Ok tt /\
    secretKey (connect c' w2).1.2 = Some sk /\
    publicKey (connect c' w2).1.2 = publicKey (connect c w).1.2 /\
    w_keys (connect c' w2).2 = w_keys w2.
Proof.
  intros nsecKey.
  assert (Hfirst : exists sk stored pk,
            getPublicKey sk = Ok pk /\
            secretKey (connect c w).1.2 = Some sk /\
            publicKey (connect c w).1.2 = pk /\
            view (w_store (connect c w).2) nsecKey = Some stored /\
            startsWith stored "nsec1" = true /\
            decode stored = Ok (DecodedNsec sk)).
  { revert Hconnects.
    destruct (stored_key_cases (view (w_store w) nsecKey))
      as [(s & k & Hview & Hs & Hk)|Hbad].
    - rewrite (connect_reads_key view c w s k Hreads Hc Hview Hs Hk).
      unfold connect_outcome. destruct (getPublicKey k) as [pk|e] eqn:Hpk;
        [|discriminate].
      intros _. exists k, s, pk. cbn. auto 10.
    - rewrite (connect_regenerate c w (view (w_store w) nsecKey) (w_store w) Hc
                 (Hreads nsecKey (w_store w)) Hbad).
      destruct (Hwrites nsecKey (nsecEncode (generateSecretKey (w_keys w)))
                  (w_store w)) as (s' & Hset & Hview' & _).
      unfold connect_outcome.
      destruct (getPublicKey (generateSecretKey (w_keys w))) as [pk|e] eqn:Hpk;
        [|discriminate].
      intros _.
      exists (generateSecretKey (w_keys w)),
             (nsecEncode (generateSecretKey (w_keys w))), pk.
      cbn. fold nsecKey. rewrite Hset. cbn. destruct Hcodec. auto 10. }
  destruct Hfirst as (sk & stored & pk & Hpk & Hkey & Hpub & Hview & Hs & Hk).
  exists sk, stored. rewrite Hpub.
  assert (Hview2 : view (w_store w2) (String.append (storageKeyPrefix c') "-nsec")
                   = Some stored)
    by (rewrite Hprefix, Hstore; exact Hview).
  rewrite (connect_reads_key view c' w2 stored sk Hreads Hc' Hview2 Hs Hk).
  unfold connect_outcome. rewrite Hpk. cbn. auto 12.
Qed.

Lemma identity_persists_witness :
  let h := Sample.host false false (fun _ _ => true) false in
  let view := fun (s : gmap string string) (key : string) => s !! key in
  let c := constructor [] Sample.options in
  let w := Sample.world0 h ∅ in
  let s1 := connect (H := h) c w in
  let s2 := disconnect (H := h) s1.1.2 s1.2 in
  storage_reads (H := h) view /\
  storage_writes (H := h) view /\
  (startsWith (nsecEncode (generateSecretKey (w_keys w))) "nsec1" = true /\
   decode (nsecEncode (generateSecretKey (w_keys w))) =
   Ok (DecodedNsec (generateSecretKey (w_keys w)))) /\
  _isConnected c = false /\
  _isConnected s2.1.2 = false /\
  (connect c w).1.1 = Ok tt /\
  storageKeyPrefix s2.1.2 = storageKeyPrefix c /\
  w_store s2.2 = w_store s1.2 /\
  let nsecKey := String.append (storageKeyPrefix c) "-nsec" in
  exists sk stored,
    secretKey (connect c w).1.2 = Some sk /\
    getPublicKey sk = Ok (publicKey (connect c w).1.2) /\
    view (w_store (connect c w).2) nsecKey = Some stored /\
    startsWith stored "nsec1" = true /\
    decode stored = Ok (DecodedNsec sk) /\
    (connect s2.1.2 s2.2).1.1 = Ok tt /\
    secretKey (connect s2.1.2 s2.2).1.2 = Some sk /\
    publicKey (connect s2.1.2 s2.2).1.2 = publicKey (connect c w).1.2 /\
    w_keys (connect s2.1.2 s2.2).2 = w_keys s2.2.
Proof.
  intros h view c w s1 s2.
  assert (Hreads : storage_reads (H := h) view) by (intros key s; reflexivity).
  assert (Hwrites : storage_writes (H := h) view).
  { intros key value s. exists (<[key := value]> (s : gmap string string)).
    split; [reflexivity|]. split; [apply lookup_insert_eq|].
    intros other Hne. apply lookup_insert_ne. congruence. }
  split; [exact Hreads|]. split; [exact Hwrites|].
  split; [split; reflexivity|]. split; [reflexivity|].
  split; [reflexivity|]. split; [reflexivity|]. split; [reflexivity|].
  split; [reflexivity|].
  apply (identity_persists (H := h) view c s2.1.2 w s2.2 Hreads Hwrites);
    try reflexivity.
  split; reflexivity.
Defined.

(** X9: with a storage backend that throws on reads, a generator that does
    not repeat itself and keys the curve accepts, [connect()],
    [disconnect()] (with a relay list [pool.close] takes), [connect()] draws
    two keys from the generator and writes nothing: the second session has
    a secret key different from that of the first. *)
Theorem unreadable_storage_new_identity `{H : Host} (c : NostrClient) (w : World)
    (pk0 pk1 : string)
    (Hfresh : _isConnected c = false)
    (Hthrows : forall s, exists e s',
        getItem (String.append (storageKeyPrefix c) "-nsec") s = (Throw e, s'))
    (Hvalid0 : getPublicKey (generateSecretKey (w_keys w)) = Ok pk0)
    (Hvalid1 : getPublicKey (generateSecretKey (S (w_keys w))) = Ok pk1)
    (Hdistinct : generateSecretKey (S (w_keys w)) <> generateSecretKey (w_keys w))
    (Hcloses : poolClose_throws (relays c) = None) :
  let nsecKey := String.append (storageKeyPrefix c) "-nsec" in
  let p0 := {| pool_id := w_pools w |} in
  let p1 := {| pool_id := S (w_pools w) |} in
  let s1 := connect c w in
  let s2 := disconnect s1.1.2 s1.2 in
  let s3 := connect s2.1.2 s2.2 in
  s1.1.1 = Ok tt /\ s2.1.1 = Ok tt /\ s3.1.1 = Ok tt /\
  secretKey s1.1.2 = Some (generateSecretKey (w_keys w)) /\
  secretKey s3.1.2 = Some (generateSecretKey (S (w_keys w))) /\
  secretKey s3.1.2 <> secretKey s1.1.2 /\
  publicKey s1.1.2 = pk0 /\
  publicKey s3.1.2 = pk1 /\
  w_trace s3.2 =
    w_trace w ++ [EGetItem nsecKey; EGenerateSecretKey; ENewPool p0;
                  EPoolClose p0 (relays c);
                  EGetItem nsecKey; EGenerateSecretKey; ENewPool p1].
Proof.
  intros nsecKey p0 p1 s1 s2 s3. subst s3 s2 s1.
  destruct (Hthrows (w_store w)) as (e & store1 & Hget).
  rewrite (connect_ephemeral c w e store1 Hfresh Hget).
  unfold connect_outcome. rewrite Hvalid0. cbn [fst snd].
  rewrite disconnect_eq. cbn [fst snd pool connected_with relays].
  rewrite Hcloses. cbn [fst snd].
  match goal with
  | |- context [connect ?c2 ?w2] =>
      destruct (Hthrows (w_store w2)) as (e2 & store2 & Hget2);
      rewrite (connect_ephemeral c2 w2 e2 store2 eq_refl Hget2)
  end.
  unfold connect_outcome. cbn. rewrite Hvalid1. cbn. fold nsecKey.
  repeat split.
  - intros [= Heq]. now apply Hdistinct.
  - rewrite <- !app_assoc. reflexivity.
Qed.

Lemma unreadable_storage_new_identity_witness :
  let h := Sample.host true false (fun _ _ => true) false in
  let c := constructor [] Sample.options in
  let w := Sample.world0 h ∅ in
  let pk0 := "pub:key0"%string in
  let pk1 := "pub:key1"%string in
  _isConnected c = false /\
  (forall s, exists e s',
      getItem (Host := h) (String.append (storageKeyPrefix c) "-nsec") s
      = (Throw e, s')) /\
  getPublicKey (Host := h) (generateSecretKey (w_keys w)) = Ok pk0 /\
  getPublicKey (Host := h) (generateSecretKey (S (w_keys w))) = Ok pk1 /\
  generateSecretKey (Host := h) (S (w_keys w)) <> generateSecretKey (w_keys w) /\
  poolClose_throws (relays c) = None /\
  let nsecKey := String.append (storageKeyPrefix c) "-nsec" in
  let p0 := {| pool_id := w_pools w |} in
  let p1 := {| pool_id := S (w_pools w) |} in
  let s1 := connect c w in
  let s2 := disconnect s1.1.2 s1.2 in
  let s3 := connect s2.1.2 s2.2 in
  s1.1.1 = Ok tt /\ s2.1.1 = Ok tt /\ s3.1.1 = Ok tt /\
  secretKey s1.1.2 = Some (generateSecretKey (w_keys w)) /\
  secretKey s3.1.2 = Some (generateSecretKey (S (w_keys w))) /\
  secretKey s3.1.2 <> secretKey s1.1.2 /\
  publicKey s1.1.2 = pk0 /\
  publicKey s3.1.2 = pk1 /\
  w_trace s3.2 =
    w_trace w ++ [EGetItem nsecKey; EGenerateSecretKey; ENewPool p0;
                  EPoolClose p0 (relays c);
                  EGetItem nsecKey; EGenerateSecretKey; ENewPool p1].
Proof.
  intros h c w pk0 pk1.
  assert (Hthrows : forall s, exists e s',
             getItem (Host := h) (String.append (storageKeyPrefix c) "-nsec") s
             = (Throw e, s'))
    by (intros s; eexists _, _; reflexivity).
  assert (Hdistinct : generateSecretKey (Host := h) (S (w_keys w))
                      <> generateSecretKey (w_keys w)) by discriminate.
  split; [reflexivity|]. split; [exact Hthrows|]. split; [reflexivity|].
  split; [reflexivity|]. split; [exact Hdistinct|]. split; [reflexivity|].
  apply (unreadable_storage_new_identity (H := h) c w pk0 pk1 eq_refl Hthrows
           eq_refl eq_refl Hdistinct eq_refl).
Defined.

(** X10: with a storage backend that can be read but refuses writes (a full
    quota) and holds nothing under the client's key, keys the curve accepts
    and a relay list [pool.close] takes, [connect()] still returns, tries
    the write once and goes on with the generated key; as nothing was kept,
    the [connect()] after a [disconnect()] generates the next key. *)
Theorem full_storage_new_identity `{H : Host}
    (view : Store -> string -> option string) (c : NostrClient) (w : World)
    (pk0 pk1 : string)
    (Hreads : storage_reads view) (Hrefuses : storage_refuses_writes view)
    (Hfresh : _isConnected c = false)
    (Hempty : view (w_store w) (String.append (storageKeyPrefix c) "-nsec") = None)
    (Hvalid0 : getPublicKey (generateSecretKey (w_keys w)) = Ok pk0)
    (Hvalid1 : getPublicKey (generateSecretKey (S (w_keys w))) = Ok pk1)
    (Hcloses : poolClose_throws (relays c) = None) :
  let nsecKey := String.append (storageKeyPrefix c) "-nsec" in
  let k0 := generateSecretKey (w_keys w) in
  let k1 := generateSecretKey (S (w_keys w)) in
  let p0 := {| pool_id := w_pools w |} in
  let p1 := {| pool_id := S (w_pools w) |} in
  let s1 := connect c w in
  let s2 := disconnect s1.1.2 s1.2 in
  let s3 := connect s2.1.2 s2.2 in
  s1.1.1 = Ok tt /\ s2.1.1 = Ok tt /\ s3.1.1 = Ok tt /\
  secretKey s1.1.2 = Some k0 /\
  secretKey s3.1.2 = Some k1 /\
  publicKey s1.1.2 = pk0 /\
  publicKey s3.1.2 = pk1 /\
  (forall key, view (w_store s3.2) key = view (w_store w) key) /\
  w_trace s3.2 =
    w_trace w ++ [EGetItem nsecKey; EGenerateSecretKey;
                  ESetItem nsecKey (nsecEncode k0); ENewPool p0;
                  EPoolClose p0 (relays c);
                  EGetItem nsecKey; EGenerateSecretKey;
                  ESetItem nsecKey (nsecEncode k1); ENewPool p1].
Proof.
  intros nsecKey k0 k1 p0 p1 s1 s2 s3. subst s3 s2 s1.
  assert (Hget0 : getItem nsecKey (w_store w) = (Ok None, w_store w))
    by (rewrite (Hreads nsecKey (w_store w)); unfold nsecKey; now rewrite Hempty).
  rewrite (connect_regenerate c w None (w_store w) Hfresh Hget0 (or_introl eq_refl)).
  unfold connect_outcome. rewrite Hvalid0. cbn [fst snd]. fold nsecKey k0.
  destruct (Hrefuses nsecKey (nsecEncode k0) (w_store w)) as (e & store1 & Hset & Hsame).
  rewrite Hset. cbn [snd].
  rewrite disconnect_eq. cbn [fst snd pool connected_with relays].
  rewrite Hcloses. cbn [fst snd].
  assert (Hget1 : getItem nsecKey store1 = (Ok None, store1))
    by (rewrite (Hreads nsecKey store1), Hsame; unfold nsecKey; now rewrite Hempty).
  match goal with
  | |- context [connect ?c2 ?w2] =>
      rewrite (connect_regenerate c2 w2 None store1 eq_refl Hget1 (or_introl eq_refl))
  end.
  unfold connect_outcome.
  cbn [fst snd storageKeyPrefix connected_with disconnected set_pool
       set_isConnected pool w_keys w_pools emit next_pool next_key set_store].
  rewrite Hvalid1. fold nsecKey k1.
  destruct (Hrefuses nsecKey (nsecEncode k1) store1) as (e1 & store2 & Hset1 & Hsame1).
  rewrite Hset1. cbn. repeat split.
  - intros key. now rewrite Hsame1, Hsame.
  - rewrite <- !app_assoc. reflexivity.
Qed.

Lemma full_storage_new_identity_witness :
  let h := Sample.host false true (fun _ _ => true) false in
  let view := fun (s : gmap string string) (key : string) => s !! key in
  let c := constructor [] Sample.options in
  let w := Sample.world0 h ∅ in
  let pk0 := "pub:key0"%string in
  let pk1 := "pub:key1"%string in
  storage_reads (H := h) view /\
  storage_refuses_writes (H := h) view /\
  _isConnected c = false /\
  view (w_store w) (String.append (storageKeyPrefix c) "-nsec") = None /\
  getPublicKey (Host := h) (generateSecretKey (w_keys w)) = Ok pk0 /\
  getPublicKey (Host := h) (generateSecretKey (S (w_keys w))) = Ok pk1 /\
  poolClose_throws (relays c) = None /\
  let nsecKey := String.append (storageKeyPrefix c) "-nsec" in
  let k0 := generateSecretKey (w_keys w) in
  let k1 := generateSecretKey (S (w_keys w)) in
  let p0 := {| pool_id := w_pools w |} in
  let p1 := {| pool_id := S (w_pools w) |} in
  let s1 := connect c w in
  let s2 := disconnect s1.1.2 s1.2 in
  let s3 := connect s2.1.2 s2.2 in
  s1.1.1 = Ok tt /\ s2.1.1 = Ok tt /\ s3.1.1 = Ok tt /\
  secretKey s1.1.2 = Some k0 /\
  secretKey s3.1.2 = Some k1 /\
  publicKey s1.1.2 = pk0 /\
  publicKey s3.1.2 = pk1 /\
  (forall key, view (w_store s3.2) key = view (w_store w) key) /\
  w_trace s3.2 =
    w_trace w ++ [EGetItem nsecKey; EGenerateSecretKey;
                  ESetItem nsecKey (nsecEncode k0); ENewPool p0;
                  EPoolClose p0 (relays c);
                  EGetItem nsecKey; EGenerateSecretKey;
                  ESetItem nsecKey (nsecEncode k1); ENewPool p1].
Proof.
  intros h view c w pk0 pk1.
  assert (Hreads : storage_reads (H := h) view) by (intros key s; reflexivity).
  assert (Hrefuses : storage_refuses_writes (H := h) view)
    by (intros key value s; eexists _, _; split; reflexivity).
  split; [exact Hreads|]. split; [exact Hrefuses|].
  split; [reflexivity|]. split; [reflexivity|]. split; [reflexivity|].
  split; [reflexivity|]. split; [reflexivity|].
  apply (full_storage_new_identity (H := h) view c w pk0 pk1 Hreads Hrefuses);
    reflexivity.
Defined.

Lemma append_length (a b : string) :
  String.length (String.append a b) = (String.length a + String.length b)%nat.
Proof.
  induction a as [|x a IH]; [reflexivity|].
  rewrite append_cons. cbn [String.length]. now rewrite IH.
Qed.

Lemma append_inj_r (a b t : string) :
  String.append a t = String.append b t -> a = b.
Proof.
  revert b. induction a as [|x a IH]; intros [|y b] Heq.
  - reflexivity.
  - apply (f_equal String.length) in Heq.
    rewrite append_nil_l, append_cons in Heq. cbn [String.length] in Heq.
    rewrite append_length in Heq. lia.
  - apply (f_equal String.length) in Heq.
    rewrite append_nil_l, append_cons in Heq. cbn [String.length] in Heq.
    rewrite append_length in Heq. lia.
  - rewrite !append_cons in Heq. injection Heq as -> Heq.
    f_equal. now apply IH.
Qed.

(** Deriving the public key and creating the pool leave the storage alone. *)
Lemma connect_outcome_store `{H : Host} (sk : SecretKey) (c : NostrClient)
    (w1 : World) :
  w_store (connect_outcome sk c w1).2 = w_store w1.
Proof.
  unfold connect_outcome. destruct (getPublicKey sk); reflexivity.
Qed.

(** X11: [connect()] keeps to its own storage key, the prefix followed by
    "-nsec".  With a storage backend that can be read and written, whatever
    is stored under any other key is untouched; in particular two clients
    with different prefixes do not disturb each other's stored key. *)
Theorem connect_keeps_to_its_key `{H : Host}
    (view : Store -> string -> option string) (c : NostrClient) (w : World)
    (Hreads : storage_reads view) (Hwrites : storage_writes view) :
  (forall key, key <> String.append (storageKeyPrefix c) "-nsec" ->
     view (w_store (connect c w).2) key = view (w_store w) key) /\
  (forall c' : NostrClient, storageKeyPrefix c' <> storageKeyPrefix c ->
     view (w_store (connect c w).2) (String.append (storageKeyPrefix c') "-nsec")
     = view (w_store w) (String.append (storageKeyPrefix c') "-nsec")).
Proof.
  set (nsecKey := String.append (storageKeyPrefix c) "-nsec").
  assert (Hother : forall key, key <> nsecKey ->
            view (w_store (connect c w).2) key = view (w_store w) key).
  { intros key Hkey. destruct (_isConnected c) eqn:Hflag.
    - now rewrite (connect_again c w Hflag).
    - destruct (stored_key_cases (view (w_store w) nsecKey))
        as [(s & k & Hview & Hs & Hk)|Hbad].
      + rewrite (connect_reads_key view c w s k Hreads Hflag Hview Hs Hk).
        now rewrite connect_outcome_store.
      + rewrite (connect_regenerate c w (view (w_store w) nsecKey) (w_store w)
                   Hflag (Hreads nsecKey (w_store w)) Hbad).
        rewrite connect_outcome_store.
        destruct (Hwrites nsecKey (nsecEncode (generateSecretKey (w_keys w)))
                    (w_store w)) as (s' & Hset & _ & Hframe).
        cbn. fold nsecKey. rewrite Hset. cbn. now apply Hframe. }
  split; [exact Hother|].
  intros c' Hne. apply Hother. intros Heq. apply Hne.
  now apply (append_inj_r _ _ "-nsec").
Qed.

Lemma connect_keeps_to_its_key_witness :
  let h := Sample.host false false (fun _ _ => true) false in
  let view := fun (s : gmap string string) (key : string) => s !! key in
  let c := constructor [] Sample.options in
  let w := Sample.world0 h {[ "other-game-nsec"%string := "nsec1abcd"%string ]} in
  storage_reads (H := h) view /\
  storage_writes (H := h) view /\
  (forall key, key <> String.append (storageKeyPrefix c) "-nsec" ->
     view (w_store (connect c w).2) key = view (w_store w) key) /\
  (forall c' : NostrClient, storageKeyPrefix c' <> storageKeyPrefix c ->
     view (w_store (connect c w).2) (String.append (storageKeyPrefix c') "-nsec")
     = view (w_store w) (String.append (storageKeyPrefix c') "-nsec")).
Proof.
  intros h view c w.
  assert (Hreads : storage_reads (H := h) view) by (intros key s; reflexivity).
  assert (Hwrites : storage_writes (H := h) view).
  { intros key value s. exists (<[key := value]> (s : gmap string string)).
    split; [reflexivity|]. split; [apply lookup_insert_eq|].
    intros other Hne. apply lookup_insert_ne. congruence. }
  split; [exact Hreads|]. split; [exact Hwrites|].
  exact (connect_keeps_to_its_key (H := h) view c w Hreads Hwrites).
Defined.

(** ** The race between a close and the timer *)

(** X12: a close and the timer race, and the first to run decides.  Take a
    pending [fetch], events arriving up to time [t], a close arriving at
    [t], and anything after.  If the close arrives before the timer is due,
    the promise is settled by the close (fulfilled when a reason contains
    "eose", rejected with the reasons otherwise), and the timer changes
    nothing when it runs.  If the timer was due before the close arrives,
    the promise is rejected with the timeout error, whatever the reasons. *)
Theorem first_of_close_and_timer `{H : Host} (c : NostrClient) (w : World)
    (filter : Filter) (timeoutMs : option JsNumber) (st0 : FetchState) (w' : World)
    (received : list (Z * NostrEvent)) (t due now : Z) (reasons : list Reason)
    (later : list (Z * Callback))
    (Hfetch : fetch filter timeoutMs c w = (Ok st0, c, w'))
    (Hsorted : Forall (fun a => a.1 <= t) received)
    (Harrived : t <= now) :
  let arrivals :=
    map (fun a => (a.1, OnEvent a.2)) received ++ (t, OnClose reasons) :: later in
  let st := event_loop due now arrivals true st0 in
  (t < due ->
   settlements st =
   [if hasEose reasons then Resolve
    else Reject (Some (mkError (String.append "No relay response: "
                                  (join ", " (map render reasons)))))]) /\
  (t < due -> later = [] -> hasEose reasons = true ->
   promise st = Some (Ok (map snd received))) /\
  (due < t -> settlements st = [Reject (Some timeout_error)]).
Proof.
  intros arrivals st.
  assert (Hfresh : resolved st0 = false /\ settlements st0 = [] /\ events st0 = []).
  { revert Hfetch. unfold fetch, bind, this, throw.
    destruct (pool c) as [p|]; [|discriminate].
    unfold pool_subscribeManyEose.
    destruct (subscribeManyEose_throws (w_subs w) (relays c) filter);
      cbn; [discriminate|].
    intros [= <- _]. auto. }
  destruct Hfresh as (Hres & Hset & Hev).
  assert (Hearly : t < due ->
            forall st1, resolved st1 = false -> settlements st1 = [] ->
              event_loop due now
                (map (fun a => (a.1, OnEvent a.2)) received ++ (t, OnClose reasons) :: later)
                true st1 =
              event_loop due now later true
                (onclose reasons
                   (fetch_run st1 (map (fun a => OnEvent a.2) received)))).
  { intros Hlt. induction Hsorted as [|[t0 e] rest Ht0 _ IH]; intros st1 Hr Hs.
    - cbn [map app event_loop fetch_run fold_left].
      destruct (Z.leb_spec t now); [|lia].
      destruct (Z.ltb_spec due t); [lia|]. reflexivity.
    - cbn [map app event_loop]. cbn [fst snd] in *.
      destruct (Z.leb_spec t0 now); [|lia].
      destruct (Z.ltb_spec due t0); [lia|]. cbn [andb].
      rewrite IH by assumption. reflexivity. }
  assert (Hlate : due < t ->
            forall st1, resolved st1 = false -> settlements st1 = [] ->
              settlements
                (event_loop due now
                   (map (fun a => (a.1, OnEvent a.2)) received ++
                    (t, OnClose reasons) :: later) true st1)
              = [Reject (Some timeout_error)]).
  { intros Hlt. clear Hearly.
    induction Hsorted as [|[t0 e] rest Ht0 _ IH]; intros st1 Hr Hs.
    - cbn [map app event_loop].
      destruct (Z.leb_spec t now); [|lia].
      destruct (Z.ltb_spec due t); [|lia]. cbn [andb].
      rewrite event_loop_latched.
      + rewrite late_completion_noop;
          [|unfold ontimeout, finish; rewrite Hr; reflexivity|reflexivity].
        unfold ontimeout, finish. rewrite Hr. cbn. now rewrite Hs.
      + apply step_latched. unfold ontimeout, finish. rewrite Hr. reflexivity.
    - cbn [map app event_loop]. cbn [fst snd] in *.
      destruct (Z.leb_spec t0 now); [|lia].
      destruct (Z.ltb_spec due t0); cbn [andb].
      + rewrite event_loop_latched.
        * cbn. unfold ontimeout, finish. rewrite Hr. cbn. now rewrite Hs.
        * cbn. unfold ontimeout, finish. rewrite Hr. reflexivity.
      + apply IH; assumption. }
  split; [|split].
  - intros Hlt. subst st arrivals. rewrite (Hearly Hlt st0 Hres Hset).
    rewrite event_loop_latched.
    + rewrite <- map_map with (f := fun a : Z * NostrEvent => a.2) (g := OnEvent).
      rewrite fetch_run_events. unfold onclose, finish. cbn [resolved].
      rewrite Hres, Hset. destruct (hasEose reasons); reflexivity.
    + rewrite <- map_map with (f := fun a : Z * NostrEvent => a.2) (g := OnEvent).
      rewrite fetch_run_events. unfold onclose, finish. cbn [resolved].
      rewrite Hres. destruct (hasEose reasons); reflexivity.
  - intros Hlt -> Heose. subst st arrivals. rewrite (Hearly Hlt st0 Hres Hset).
    cbn [event_loop].
    rewrite <- map_map with (f := fun a : Z * NostrEvent => a.2) (g := OnEvent).
    rewrite fetch_run_events. unfold onclose. rewrite Heose.
    unfold finish. cbn [resolved]. rewrite Hres.
    assert (Hnoop : forall s, resolved s = true -> ontimeout s = s)
      by (intros s Hs; unfold ontimeout; now apply finish_latched).
    destruct (true && (due <=? now)); [rewrite Hnoop by reflexivity|];
      unfold promise; cbn; rewrite Hset, Hev; reflexivity.
  - intros Hlt. subst st arrivals. now apply Hlate.
Qed.

Lemma first_of_close_and_timer_witness :
  let h := Sample.host false false (fun _ _ => true) false in
  let c := set_pool (Some {| pool_id := 0 |}) (constructor [] Sample.options) in
  let w := Sample.world0 h ∅ in
  let f := fetch (H := h) Sample.filter (Some (Millis 3000)) c w in
  let st0 := {| events := []; resolved := false; sub := {| sub_id := 0 |};
                settlements := []; sub_closes := 0 |} in
  let received := [(100, Sample.event 1); (250, Sample.event 2)] in
  let reasons := [RString "closed automatically on eose"] in
  let later := [(2000, OnClose [RString "closed by caller"])] in
  f = (Ok st0, c, f.2) /\
  Forall (fun a => a.1 <= 300) received /\
  300 <= 5000 /\
  let arrivals :=
    map (fun a => (a.1, OnEvent a.2)) received ++ (300, OnClose reasons) :: later in
  let st := event_loop 3000 5000 arrivals true st0 in
  (300 < 3000 ->
   settlements st =
   [if hasEose reasons then Resolve
    else Reject (Some (mkError (String.append "No relay response: "
                                  (join ", " (map render reasons)))))]) /\
  (300 < 3000 -> later = [] -> hasEose reasons = true ->
   promise st = Some (Ok (map snd received))) /\
  (3000 < 300 -> settlements st = [Reject (Some timeout_error)]).
Proof.
  intros h c w f st0 received reasons later.
  assert (Hf : f = (Ok st0, c, f.2)) by reflexivity.
  assert (Hsorted : Forall (fun a : Z * NostrEvent => a.1 <= 300) received)
    by (repeat constructor; cbn; lia).
  split; [exact Hf|]. split; [exact Hsorted|]. split; [lia|].
  apply (first_of_close_and_timer (H := h) c w Sample.filter (Some (Millis 3000)) st0 f.2
           received 300 3000 5000 reasons later Hf Hsorted).
  lia.
Defined.

(** X13: on a client that is not connected, [connect()] throws only where
    it derives the public key.  Whatever the storage backend does (throw on
    reads, throw on writes, hold something that is not a key), a secret key
    is chosen and assigned; if [getPublicKey] accepts it the call returns
    with the client connected on a new pool, and if [getPublicKey] throws,
    that error leaves [connect()] with the secret key already assigned, no
    pool, and the public key and the flag as they were. *)
Theorem connect_throws_only_deriving_the_key `{H : Host} (c : NostrClient)
    (w : World) (Hfresh : _isConnected c = false) :
  exists sk w1,
    w_pools w1 = w_pools w /\
    secretKey (connect c w).1.2 = Some sk /\
    match getPublicKey sk with
    | Ok pk =>
        connect c w =
        (Ok tt, connected_with sk pk {| pool_id := w_pools w |} c,
         emit (ENewPool {| pool_id := w_pools w |}) (next_pool w1))
    | Throw e =>
        connect c w = (Throw e, set_secretKey sk c, w1) /\
        _isConnected (connect c w).1.2 = false /\
        pool (connect c w).1.2 = pool c /\
        publicKey (connect c w).1.2 = publicKey c
    end.
Proof.
  destruct (connect_cases c w Hfresh) as (sk & w1 & Hconnect & Hpools).
  exists sk, w1. rewrite Hconnect. unfold connect_outcome. rewrite Hpools.
  destruct (getPublicKey sk) as [pk|e]; cbn; repeat split; auto.
Qed.

Lemma connect_throws_only_deriving_the_key_witness :
  let h := Sample.host true true (fun _ _ => true) false in
  let c := constructor [] Sample.options in
  let w := Sample.world0 h ∅ in
  _isConnected c = false /\
  exists sk w1,
    w_pools w1 = w_pools w /\
    secretKey (connect (H := h) c w).1.2 = Some sk /\
    match getPublicKey sk with
    | Ok pk =>
        connect c w =
        (Ok tt, connected_with sk pk {| pool_id := w_pools w |} c,
         emit (ENewPool {| pool_id := w_pools w |}) (next_pool w1))
    | Throw e =>
        connect c w = (Throw e, set_secretKey sk c, w1) /\
        _isConnected (connect c w).1.2 = false /\
        pool (connect c w).1.2 = pool c /\
        publicKey (connect c w).1.2 = publicKey c
    end.
Proof.
  intros h c w. split; [reflexivity|].
  exact (connect_throws_only_deriving_the_key (H := h) c w eq_refl).
Defined.
